(** * Fire risk dashboard: the data core of [app.py]

    A shallow embedding of the parts of [app.py] that carry logic:
    - the two classification helpers [group_buildings] and [group_locations]
      nested in [process_location_data];
    - the pandas pipeline of [process_location_data] (filter, group-by sum,
      normalise to percentages, pivot, fill, drop, melt);
    - the queries [sql_locations] and [sql_human_cost] (joins, WHERE,
      GROUP BY, HAVING, COUNT and SUM);
    - [load_data]: a DuckDB connection scoped by [with], behind
      [st.cache_data].

    Python [str] values are [string]s (byte sequences; equality, prefix test
    and ordering on UTF-8 bytes coincide with those on code points).
    [int64] columns are integers with the wrap-around written out.
    [float64] percentages are computed with the roundings of IEEE binary64
    (to nearest, ties to even) written out on fractions; the module
    [Binary64] replays evaluated ones on the machine's floats.  *)

From Stdlib Require Import ZArith String Ascii List Lia Permutation.
From Stdlib Require Import PrimFloat Uint63.
From Stdlib Require Import Rbase Lra.
From stdpp Require Import base tactics option list sorting strings gmap.

Local Open Scope string_scope.
Local Open Scope Z_scope.

(** ** Python values and exceptions *)

(** A cell of an [object] column as the classification helpers see it: a
    [str], or [None] for an SQL NULL. *)
Inductive pyval : Type :=
| PStr (s : string)
| PNone.

Inductive exn : Type :=
| AttributeError   (* attribute lookup on an object that lacks it *)
| ValueError       (* pandas: duplicate entries, cannot reshape *)
| DuckDBError (message : string).
                   (* duckdb: the database file cannot be opened, or the
                      query cannot be run *)

Inductive result (A : Type) : Type :=
| Ok (a : A)
| Raise (e : exn).
Arguments Ok {A} a.
Arguments Raise {A} e.

(** Exceptions propagate: the monad of [result], with stdpp's [x ← m; k]. *)
#[global] Instance result_ret : MRet result := fun A a => Ok a.
#[global] Instance result_bind : MBind result := fun A B k m =>
  match m with
  | Ok a => k a
  | Raise e => Raise e
  end.

(** [Series.apply(f)]: [f] on every element in order; the first exception
    aborts the call. *)
Fixpoint apply {A B} (f : A -> result B) (l : list A) : result (list B) :=
  match l with
  | [] => Ok []
  | x :: l' => y ← f x; ys ← apply f l'; mret (y :: ys)
  end.

Definition is_str (v : pyval) : Prop :=
  match v with PStr _ => True | PNone => False end.

#[global] Instance is_str_dec v : Decision (is_str v).
Proof. destruct v; simpl; apply _. Defined.

(** ** Classification helpers *)

(** [x == 'literal'] on a cell: [None] equals no string. *)
Definition py_eq (v : pyval) (lit : string) : bool :=
  match v with
  | PStr s => String.eqb s lit
  | PNone => false
  end.

(** [x in (lit1, lit2, ...)]. *)
Definition py_in (v : pyval) (lits : list string) : bool :=
  existsb (py_eq v) lits.

(** [x.startswith(lit)]: a method of [str]; [None] has no such attribute. *)
Definition startswith (v : pyval) (lit : string) : result bool :=
  match v with
  | PStr s => Ok (String.prefix lit s)
  | PNone => Raise AttributeError
  end.

Definition group_buildings (dwelling_type : pyval) : result string :=
  if py_eq dwelling_type "House - single occupancy" then Ok "House"
  else
    b ← startswith dwelling_type "Purpose Built";
    if (b : bool) then Ok "Purpose Built Flats" else Ok "Other".

Definition group_locations (location : pyval) : string :=
  if py_eq location "Kitchen" then "Kitchen"
  else if py_in location ["Living Room"; "Bedroom/ Bedsitting Room"]
  then "Living/Bedroom"
  else if py_in location
            ["Refuse Store";
             "Corridor/ Hall/ Open Plan Area/ Reception Area";
             "Stairs/ Under stairs (enclosed area)"]
  then "Communal/Escape Routes"
  else "Other Room/External".

(** "Starts with": the literal followed by anything. *)
Definition starts_with (lit s : string) : Prop :=
  exists rest : string, s = lit +:+ rest.


(** ** Columns and cells of the location tables *)

(** [int64] arithmetic of a numeric column: results wrap silently. *)
Definition wrap64 (z : Z) : Z := (z + 2 ^ 63) mod 2 ^ 64 - 2 ^ 63.

Definition sum64 (l : list Z) : Z :=
  fold_left (fun acc v => wrap64 (acc + v)) l 0.

(** A [float64] cell of the percentage column after [.round(1)].  numpy
    rounds to one decimal by scaling with 10, [rint], and scaling back, so
    a finite cell is the binary64 number nearest to a whole number of
    tenths; it is held as that number: [Tenths 667] is 66.7. *)
Inductive fval : Type :=
| Tenths (t : Z)
| NaN
| Inf (negative : bool).

#[global] Instance fval_eq_dec : EqDecision fval.
Proof. solve_decision. Defined.

(** The integer nearest to [num / den] for [0 < den], ties to even:
    [numpy.rint]. *)
Definition round_half_even (num den : Z) : Z :=
  let q := num / den in
  let r := num mod den in
  if 2 * r <? den then q
  else if den <? 2 * r then q + 1
  else if Z.even q then q else q + 1.

(** *** IEEE binary64

    A finite binary64 number is held as a fraction [(num, den)] whose
    denominator is a power of two.  The quotients of [int64] values lie
    between 2^-63 and 2^70 in magnitude, far from the subnormal and the
    overflow range, so only the 53-bit significand matters. *)

(** The fraction [(num / den) / 2^e]. *)
Definition scaled (num den e : Z) : Z * Z :=
  if 0 <=? e then (num, den * 2 ^ e) else (num * 2 ^ (- e), den).

(** The exponent of the last place of [num / den], for [0 < num] and
    [0 < den]: the [e] with [2^52 <= (num / den) / 2^e < 2^53]. *)
Definition ulp_exponent (num den : Z) : Z :=
  let e := Z.log2 num - Z.log2 den - 52 in
  let s := scaled num den e in
  if 2 ^ 52 * s.2 <=? s.1 then e else e - 1.

(** The binary64 number nearest to [num / den], ties to the even
    significand. *)
Definition b64_pos (num den : Z) : Z * Z :=
  let e := ulp_exponent num den in
  let s := scaled num den e in
  let m := round_half_even s.1 s.2 in
  if 0 <=? e then (m * 2 ^ e, 1) else (m, 2 ^ (- e)).

Definition b64 (num den : Z) : Z * Z :=
  if num =? 0 then (0, 1)
  else if 0 <? num then b64_pos num den
  else let p := b64_pos (- num) den in (- p.1, p.2).

(** Division of two binary64 numbers, the divisor not zero. *)
Definition b64_div (a b : Z * Z) : Z * Z :=
  if 0 <? b.1 then b64 (a.1 * b.2) (a.2 * b.1)
  else b64 (- (a.1 * b.2)) (- (a.2 * b.1)).

(** The real number a fraction stands for, and the unit roundoff. *)
Definition value (p : Z * Z) : R := (IZR p.1 / IZR p.2)%R.

Definition u64 : R := (/ IZR (2 ^ 53))%R.

(** [(100 * n / total).round(1)] for one row: the product is [int64]; both
    operands are converted to [float64] and divided (a zero divisor gives
    [nan] or an infinity, no exception); the quotient is multiplied by 10,
    rounded to an integer and divided by 10.  [total] is [None] where
    [.map] found no entry. *)
Definition percentage_of (n : Z) (total : option Z) : fval :=
  match total with
  | None => NaN
  | Some d =>
      let num := wrap64 (100 * n) in
      if d =? 0 then (if num =? 0 then NaN else Inf (num <? 0))
      else
        let x := b64_div (b64 num 1) (b64 d 1) in
        let y := b64 (10 * x.1) x.2 in
        Tenths (round_half_even y.1 y.2)
  end.

(** [str] ordering, used by pandas to sort group keys and pivot labels. *)
Definition str_le (a b : string) : Prop := String.leb a b = true.

#[global] Instance str_le_dec a b : Decision (str_le a b).
Proof. unfold str_le. apply _. Defined.

(** Ordering of the key tuples [(building_group, location_group)]. *)
Definition key_le (a b : string * string) : Prop :=
  match String.compare a.1 b.1 with
  | Lt => True
  | Eq => str_le a.2 b.2
  | Gt => False
  end.

#[global] Instance key_le_dec a b : Decision (key_le a b).
Proof. unfold key_le. destruct (String.compare a.1 b.1); apply _. Defined.

(** The distinct labels of a column, ascending. *)
Definition sorted_unique {A} `{EqDecision A} (R : relation A)
    `{forall x y, Decision (R x y)} (l : list A) : list A :=
  merge_sort R (remove_dups l).

(** [groupby(keys)[col].sum()]: one entry per distinct key, keys ascending,
    the [int64] sum of the key's rows. *)
Definition groupby_sum {K} `{EqDecision K} (R : relation K)
    `{forall x y, Decision (R x y)} (rows : list (K * Z)) : list (K * Z) :=
  (fun k => (k, sum64 ((filter (fun r => r.1 = k) rows).*2)))
    <$> sorted_unique R (rows.*1).

(** The raw table of [sql_locations]. *)
Record raw_row : Type := RawRow {
  dwelling_type : pyval;
  fire_start_location : pyval;
  number_of_incidents : Z
}.

(** A raw row with the two derived columns. *)
Record grouped_row : Type := GroupedRow {
  raw : raw_row;
  building_group : string;
  location_group : string
}.

(** A row of [df_grouped_counts] with its two normalisation columns. *)
Record pct_row : Type := PctRow {
  pr_building_group : string;
  pr_location_group : string;
  pr_number_of_incidents : Z;
  group_total : option Z;
  percentage : fval
}.

(** [df_locations_pivot_pct]: the building groups as columns, one entry per
    location group of the index with that row's cells. *)
Record pivot_table : Type := Pivot {
  columns : list string;
  rows : list (string * list fval)
}.

Definition index (pv : pivot_table) : list string := (rows pv).*1.

(** A row of [df_locations_chart_data]. *)
Record chart_row : Type := ChartRow {
  cr_location_group : string;
  cr_building_group : string;
  cr_percentage : fval
}.

#[global] Instance chart_row_eq_dec : EqDecision chart_row.
Proof. solve_decision. Defined.

(** ** [process_location_data], step by step *)

(** Lines 142-143: the two [.apply] calls, the dwelling types first. *)
Definition classify (df_locations_raw : list raw_row)
    : result (list grouped_row) :=
  building_groups ←
    apply group_buildings (dwelling_type <$> df_locations_raw);
  location_groups ←
    apply (fun v => Ok (group_locations v))
          (fire_start_location <$> df_locations_raw);
  mret (zip_with (fun r gl => GroupedRow r gl.1 gl.2) df_locations_raw
          (zip building_groups location_groups)).

(** Lines 145-147: keep the two building groups of the comparison. *)
Definition select_groups (df : list grouped_row) : list grouped_row :=
  filter (fun r => building_group r ∈ ["House"; "Purpose Built Flats"]) df.

(** Lines 149-151: the two key columns and the summed column, then the
    group-by. *)
Definition count_rows (df_groups : list grouped_row)
    : list (string * string * Z) :=
  (fun r => (building_group r, location_group r, number_of_incidents (raw r)))
    <$> df_groups.

Definition grouped_counts (df_groups : list grouped_row)
    : list (string * string * Z) :=
  groupby_sum key_le (count_rows df_groups).

(** Line 153. *)
Definition total_rows (df_grouped_counts : list (string * string * Z))
    : list (string * Z) :=
  (fun r => (r.1.1, r.2)) <$> df_grouped_counts.

Definition group_totals (df_grouped_counts : list (string * string * Z))
    : list (string * Z) :=
  groupby_sum str_le (total_rows df_grouped_counts).

(** Lines 154-157: [.map(group_totals)] looks each building group up in
    the totals; then the percentage column. *)
Definition normalize (df_grouped_counts : list (string * string * Z))
    : list pct_row :=
  let totals : gmap string Z := list_to_map (group_totals df_grouped_counts) in
  (fun r =>
     let total := totals !! r.1.1 in
     PctRow r.1.1 r.1.2 r.2 total (percentage_of r.2 total))
    <$> df_grouped_counts.

(** The percentage of the row of [df_grouped_counts] for
    [(location, building)], if there is one. *)
Definition find_cell (df : list pct_row) (l b : string) : option fval :=
  percentage <$>
    head (filter (fun r => pr_location_group r = l /\ pr_building_group r = b)
            df).

(** Lines 159-163: [.pivot] fails on a repeated (index, column) pair;
    labels come out ascending and absent pairs are [nan]. *)
Definition pivot (df : list pct_row) : result pivot_table :=
  if decide (NoDup ((fun r => (pr_location_group r, pr_building_group r))
                      <$> df))
  then
    let cols := sorted_unique str_le (pr_building_group <$> df) in
    let idx := sorted_unique str_le (pr_location_group <$> df) in
    Ok (Pivot cols
          ((fun l => (l, (fun b => default NaN (find_cell df l b)) <$> cols))
             <$> idx))
  else Raise ValueError.

(** [.fillna(v)]: [v] in place of every [nan] cell. *)
Definition fill (v c : fval) : fval := if decide (c = NaN) then v else c.

Definition fillna (v : fval) (pv : pivot_table) : pivot_table :=
  Pivot (columns pv)
    ((fun r : string * list fval => (r.1, fill v <$> r.2)) <$> rows pv).

(** Line 165: [errors='ignore'] makes an absent label a no-op. *)
Definition drop (label : string) (pv : pivot_table) : pivot_table :=
  Pivot (columns pv)
    (filter (fun r : string * list fval => r.1 <> label) (rows pv)).

(** Lines 168-172: [reset_index().melt(...)]: column by column, the index
    labels repeated under each. *)
Definition melt (pv : pivot_table) : list chart_row :=
  mjoin (imap (fun j b =>
                 (fun r : string * list fval =>
                    ChartRow r.1 b (default NaN (r.2 !! j)))
                   <$> rows pv)
              (columns pv)).

(** [process_location_data] on the table that [load_data(sql_locations)]
    returned. *)
Definition process_location_data (df_locations_raw : list raw_row)
    : result (list chart_row * pivot_table) :=
  df ← classify df_locations_raw;
  let df_groups := select_groups df in
  let df_grouped_counts := normalize (grouped_counts df_groups) in
  pv ← pivot df_grouped_counts;
  let df_locations_pivot_pct :=
    drop "Other Room/External" (fillna (Tenths 0) pv) in
  let df_locations_chart_data := melt df_locations_pivot_pct in
  mret (df_locations_chart_data, df_locations_pivot_pct).

(** The text cells of a table from the store. *)
Definition row (d l : string) (n : Z) : raw_row := RawRow (PStr d) (PStr l) n.

(** ** Vocabulary for the properties of the transform *)

(** The sum of a list of cells, in tenths, when all of them are finite. *)
Fixpoint sum_tenths (l : list fval) : option Z :=
  match l with
  | [] => Some 0
  | Tenths t :: l' => s ← sum_tenths l'; Some (t + s)
  | _ :: _ => None
  end.

(** The percentages of one building group over all of its location groups,
    as the normalize step leaves them. *)
Definition group_percentages (b : string) (df : list pct_row) : list fval :=
  percentage <$> filter (fun r => pr_building_group r = b) df.

(** Every building group's percentages add up to 100 give or take [tol]
    tenths. *)
Definition sums_to_100_within (tol : Z) (df : list pct_row) : Prop :=
  forall b, b ∈ pr_building_group <$> df ->
    exists s, sum_tenths (group_percentages b df) = Some s /\
              1000 - tol <= s <= 1000 + tol.

(** Exact sums, for comparison with the [int64] ones. *)
Definition sumZ (l : list Z) : Z := foldr Z.add 0 l.

(** The exact sum of the rows of one key. *)
Definition key_sum {K} `{EqDecision K} (kv : list (K * Z)) (k : K) : Z :=
  sumZ ((filter (fun r => r.1 = k) kv).*2).

(** The labels [group_locations] can return. *)
Definition location_labels : list string :=
  ["Communal/Escape Routes"; "Kitchen"; "Living/Bedroom";
   "Other Room/External"].

(** The incident counts of a raw table, added up exactly. *)
Definition total_incidents (t : list raw_row) : Z :=
  sumZ (number_of_incidents <$> t).

(** The figures of the worked example: both group totals and the four
    percentages. *)
Definition yields_example_figures (t : list raw_row) : Prop :=
  exists df long pv,
    classify t = Ok df /\
    process_location_data t = Ok (long, pv) /\
    group_totals (grouped_counts (select_groups df))
      = [("House", 150); ("Purpose Built Flats", 50)] /\
    ChartRow "Kitchen" "House" (Tenths 667) ∈ long /\
    ChartRow "Living/Bedroom" "House" (Tenths 333) ∈ long /\
    ChartRow "Kitchen" "Purpose Built Flats" (Tenths 600) ∈ long /\
    ChartRow "Communal/Escape Routes" "Purpose Built Flats" (Tenths 400)
      ∈ long.

(** The example rows with the dwelling-type text written as in the store. *)
Definition example_rows : list raw_row :=
  [row "House - single occupancy" "Kitchen" 100;
   row "House - single occupancy" "Living Room" 50;
   row "Purpose Built Flats" "Kitchen" 30;
   row "Purpose Built Flats" "Refuse Store" 20].

(** The example rows with ['House'] itself as the dwelling-type text. *)
Definition example_rows_literal : list raw_row :=
  [row "House" "Kitchen" 100;
   row "House" "Living Room" 50;
   row "Purpose Built Flats" "Kitchen" 30;
   row "Purpose Built Flats" "Refuse Store" 20].

(** Four location groups of one building whose shares are all ties:
    24.95, 24.95, 24.95 and 25.15 per cent. *)
Definition tie_rows : list raw_row :=
  [row "House - single occupancy" "Kitchen" 499;
   row "House - single occupancy" "Living Room" 499;
   row "House - single occupancy" "Refuse Store" 499;
   row "House - single occupancy" "Garage" 503].

(** The (location group, building group) pair of each row of the long
    table. *)
Definition pairs (long : list chart_row) : list (string * string) :=
  (fun r => (cr_location_group r, cr_building_group r)) <$> long.

(** What [classify] returns: the raw rows in order, each with the groups of
    its own dwelling type and location. *)
Definition classified (r : raw_row) (g : grouped_row) : Prop :=
  raw g = r /\
  group_buildings (dwelling_type r) = Ok (building_group g) /\
  location_group g = group_locations (fire_start_location r).

(** The pivot of a table with distinct (location, building) pairs, after
    [fillna(0)] and the drop. *)
Definition pivoted (df : list pct_row) : pivot_table :=
  drop "Other Room/External"
    (fillna (Tenths 0)
       (Pivot (sorted_unique str_le (pr_building_group <$> df))
          ((fun l => (l, (fun b => default NaN (find_cell df l b))
                           <$> sorted_unique str_le (pr_building_group <$> df)))
             <$> sorted_unique str_le (pr_location_group <$> df)))).

(** A table is crash-free when the transform returns its two tables. *)
Definition crash_free (t : list raw_row) : Prop :=
  exists out, process_location_data t = Ok out.

(** ** The queries [sql_locations] and [sql_human_cost] *)

Module Sql.

(** SQL's three truth values: [None] is UNKNOWN. *)
Definition tv : Type := option bool.

Definition sql_and (a b : tv) : tv :=
  match a, b with
  | Some false, _ | _, Some false => Some false
  | Some true, Some true => Some true
  | _, _ => None
  end.

Definition is_not_null {A} (x : option A) : tv :=
  Some (match x with Some _ => true | None => false end).

(** [a = b] and [a != b]: UNKNOWN as soon as one side is NULL. *)
Definition sql_eq `{EqDecision A} (a b : option A) : tv :=
  match a, b with
  | Some x, Some y => Some (bool_decide (x = y))
  | _, _ => None
  end.

Definition sql_neq `{EqDecision A} (a b : option A) : tv :=
  negb <$> sql_eq a b.

(** A condition lets a row through only when it is TRUE. *)
Definition holds (c : tv) : bool :=
  match c with Some true => true | _ => false end.

(** The fact table and the dimensions the two queries read.  The incident
    id identifies the row and is never NULL; every other column is
    nullable. *)
Record fact_dwelling_fire : Type := Fact {
  fact_dwelling_fire_id : Z;
  dwelling_key : option Z;
  location_key : option Z;
  ignition_key : option Z;
  spread_key : option Z;
  fatality_casualty_flag : option Z;
  rescues : option Z
}.

Record dim_dwelling : Type := Dwelling {
  dd_dwelling_key : option Z;
  dd_dwelling_type : option string
}.

Record dim_location : Type := Location {
  dl_location_key : option Z;
  dl_fire_start_location : option string
}.

Record dim_ignition : Type := Ignition {
  di_ignition_key : option Z;
  cause_of_fire : option string
}.

Record dim_spread : Type := Spread {
  ds_spread_key : option Z;
  spread_rank : option Z
}.

Record snapshot : Type := Snapshot {
  fact : list fact_dwelling_fire;
  dwelling : list dim_dwelling;
  location : list dim_location;
  ignition : list dim_ignition;
  spread : list dim_spread
}.

(** COUNT(col): the non-NULL values. *)
Definition sql_count {A} (col : list (option A)) : Z :=
  Z.of_nat (length (filter is_Some col)).

(** SUM(col) over the non-NULL values; NULL when there is none. *)
Definition sql_sum (col : list (option Z)) : option Z :=
  match omap id col with
  | [] => None
  | vs => Some (foldr Z.add 0 vs)
  end.

(** *** [sql_locations] *)

(** A row of [f JOIN d JOIN dl]. *)
Definition located : Type := fact_dwelling_fire * dim_dwelling * dim_location.

Definition locations_from (db : snapshot) : list located :=
  f ← fact db;
  d ← filter (fun d => holds (sql_eq (dwelling_key f) (dd_dwelling_key d)))
             (dwelling db);
  dl ← filter (fun dl => holds (sql_eq (location_key f) (dl_location_key dl)))
              (location db);
  [(f, d, dl)].

Definition locations_where (j : located) : tv :=
  let '(f, d, dl) := j in
  sql_and (is_not_null (dl_fire_start_location dl))
    (sql_and (sql_neq (dl_fire_start_location dl) (Some "Not known"))
       (is_not_null (dd_dwelling_type d))).

(** The GROUP BY key: [(d.dwelling_type, dl.fire_start_location)]. *)
Definition locations_key (j : located) : option string * option string :=
  (dd_dwelling_type j.1.2, dl_fire_start_location j.2).

(** [.df()] hands a NULL text cell to Python as [None]. *)
Definition to_py (o : option string) : pyval :=
  match o with Some s => PStr s | None => PNone end.

(** The table [load_data(sql_locations)] returns: one row per group, in
    order of first appearance (SQL leaves the order open). *)
Definition sql_locations (db : snapshot) : list raw_row :=
  let kept :=
    filter (fun j => holds (locations_where j) = true) (locations_from db) in
  (fun k =>
     RawRow (to_py k.1) (to_py k.2)
       (sql_count ((fun j : located => Some (fact_dwelling_fire_id j.1.1))
                     <$> filter (fun j => locations_key j = k) kept)))
    <$> remove_dups (locations_key <$> kept).

(** *** [sql_human_cost] *)

(** A row of [f JOIN di JOIN ds]. *)
Definition joined : Type := fact_dwelling_fire * dim_ignition * dim_spread.

(** FROM ... JOIN ... ON ...: inner joins. *)
Definition from_clause (db : snapshot) : list joined :=
  f ← fact db;
  di ← filter (fun di => holds (sql_eq (ignition_key f) (di_ignition_key di)))
              (ignition db);
  ds ← filter (fun ds => holds (sql_eq (spread_key f) (ds_spread_key ds)))
              (spread db);
  [(f, di, ds)].

Definition where_clause (j : joined) : tv :=
  let '(f, di, ds) := j in
  sql_and (is_not_null (spread_rank ds))
    (sql_and (is_not_null (rescues f))
       (sql_and (is_not_null (cause_of_fire di))
          (sql_neq (cause_of_fire di) (Some "Not known")))).

Definition cause_of (j : joined) : option string := cause_of_fire j.1.2.

(** The columns of the result that are counted or summed.  The three
    ROUND(AVG(...)) columns are [DOUBLE] aggregates of the same groups and
    are left out. *)
Record human_cost_row : Type := HumanCostRow {
  hc_cause_of_fire : option string;
  hc_number_of_incidents : Z;
  total_incidents_with_casualties : option Z
}.

(** GROUP BY di.cause_of_fire: the groups in order of first appearance
    (SQL leaves the order open). *)
Definition group_by_cause (rows : list joined)
    : list (option string * list joined) :=
  (fun c => (c, filter (fun j => cause_of j = c) rows))
    <$> remove_dups (cause_of <$> rows).

Definition having (g : option string * list joined) : bool :=
  bool_decide
    (sql_count ((fun j : joined => Some (fact_dwelling_fire_id j.1.1))
                  <$> g.2) > 100).

Definition select (g : option string * list joined) : human_cost_row :=
  HumanCostRow g.1
    (sql_count ((fun j : joined => Some (fact_dwelling_fire_id j.1.1))
                  <$> g.2))
    (sql_sum ((fun j : joined => fatality_casualty_flag j.1.1) <$> g.2)).

Definition sql_human_cost (db : snapshot) : list human_cost_row :=
  select <$>
    filter (fun g => having g = true)
      (group_by_cause
         (filter (fun j => holds (where_clause j) = true) (from_clause db))).

(** A joined row counts as a qualifying incident of [cause] when its
    spread rank and rescues are present and its cause is [cause], which is
    not ['Not known']. *)
Definition qualifies (cause : string) (j : joined) : Prop :=
  spread_rank j.2 <> None /\
  rescues j.1.1 <> None /\
  cause_of_fire j.1.2 = Some cause /\
  cause <> "Not known".

#[global] Instance qualifies_dec cause j : Decision (qualifies cause j).
Proof. unfold qualifies. apply _. Defined.

Definition qualifying_incidents (db : snapshot) (cause : string) : Z :=
  Z.of_nat (length (filter (qualifies cause) (from_clause db))).

(** The causes that have a row in the result. *)
Definition causes (out : list human_cost_row) : list (option string) :=
  hc_cause_of_fire <$> out.

(** A synthetic snapshot: [n1] incidents of cause 1 and [n2] of cause 2,
    all with spread rank and rescues present. *)
Definition incident (id key : Z) : fact_dwelling_fire :=
  Fact id None None (Some key) (Some 1) (Some 0) (Some 0).

Definition synthetic (n1 n2 : nat) : snapshot :=
  Snapshot
    (((fun i => incident (Z.of_nat i) 1) <$> seq 0 n1) ++
     ((fun i => incident (Z.of_nat (n1 + i)) 2) <$> seq 0 n2))
    [] []
    [Ignition (Some 1) (Some "Smoking materials");
     Ignition (Some 2) (Some "Candles")]
    [Spread (Some 1) (Some 3)].

End Sql.

(** ** [load_data]: a scoped DuckDB connection behind [st.cache_data] *)

Module Gateway.
Section Gateway.

(** What [.df()] returns. *)
Context {Table : Type}.

(** The database file as one call sees it, for a fixed snapshot:
    whether [duckdb.connect] succeeds, and what [con.execute(q).df()]
    gives for each query text. *)
Record store : Type := Store {
  connect : result unit;
  run : string -> result Table
}.

Variable db : store.

(** The process: the cache of [st.cache_data], the connections now open,
    and counters of the calls made to the store. *)
Record world : Type := World {
  cache : gmap string Table;
  open_connections : nat;
  connects : nat;
  executions : nat
}.

(** Python code acting on the process: a result and the world after. *)
Definition M (A : Type) : Type := world -> result A * world.

Definition duckdb_connect : M unit := fun w =>
  match connect db with
  | Ok c =>
      (Ok c, World (cache w) (S (open_connections w)) (S (connects w))
               (executions w))
  | Raise e =>
      (Raise e, World (cache w) (open_connections w) (S (connects w))
                  (executions w))
  end.

Definition execute_df (query : string) : M Table := fun w =>
  (run db query,
   World (cache w) (open_connections w) (connects w) (S (executions w))).

Definition close : M unit := fun w =>
  (Ok (), World (cache w) (Nat.pred (open_connections w)) (connects w)
            (executions w)).

(** [with enter as x: body]: when [enter] returns, [exit] runs however
    [body] ends, and what [body] returned or raised is passed on. *)
Definition with_ {A B} (enter : M A) (exit : M unit) (body : A -> M B)
    : M B := fun w =>
  match enter w with
  | (Raise e, w1) => (Raise e, w1)
  | (Ok x, w1) =>
      let '(r, w2) := body x w1 in
      let '(_, w3) := exit w2 in
      (r, w3)
  end.

(** The body of [load_data]. *)
Definition load_data_body (query : string) : M Table :=
  with_ duckdb_connect close (fun _ => execute_df query).

(** [@st.cache_data]: the argument is the key; a hit returns the stored
    value without calling the function; a value is stored when the
    function returns, nothing when it raises. *)
Definition cache_data (f : string -> M Table) (query : string) : M Table :=
  fun w =>
    match cache w !! query with
    | Some df => (Ok df, w)
    | None =>
        match f query w with
        | (Ok df, w1) =>
            (Ok df, World (<[query := df]> (cache w1)) (open_connections w1)
                      (connects w1) (executions w1))
        | (Raise e, w1) => (Raise e, w1)
        end
    end.

Definition load_data : string -> M Table := cache_data load_data_body.

(** The cache holds only what this store returned. *)
Definition consistent (w : world) : Prop :=
  forall q t, cache w !! q = Some t -> connect db = Ok () /\ run db q = Ok t.

(** The store is unavailable for [q] with error [e]. *)
Definition unavailable (q : string) (e : exn) : Prop :=
  connect db = Raise e \/ (connect db = Ok () /\ run db q = Raise e).

Definition start : world := World ∅ 0 0 0.

End Gateway.
End Gateway.

(** ** The percentage column in IEEE binary64 *)

Module Binary64.

(** [int64 -> float64], for the non-negative values of this file. *)
Definition of_int64 (z : Z) : float := PrimFloat.of_uint63 (Uint63.of_Z z).

(** [numpy.rint] on a non-negative value below 2^52: adding and removing
    2^52 rounds to the nearest integer, ties to even. *)
Definition rint (y : float) : float :=
  ((y + 4503599627370496) - 4503599627370496)%float.

(** [(100 * n / total).round(1)]: numpy rounds to one decimal by scaling
    with 10, [rint], and scaling back. *)
Definition percentage_of (n total : Z) : float :=
  (rint ((of_int64 (wrap64 (100 * n)) / of_int64 total) * 10) / 10)%float.

(** The binary64 value of a number of tenths. *)
Definition of_tenths (t : Z) : float := (of_int64 t / 10)%float.

End Binary64.

(** ** Vocabulary for further properties of the transform *)

(** The row [classify] makes of a raw row whose dwelling type is a string
    (the building group is a placeholder otherwise). *)
Definition classify_row (r : raw_row) : grouped_row :=
  GroupedRow r
    (match group_buildings (dwelling_type r) with
     | Ok b => b
     | Raise _ => "Other"
     end)
    (group_locations (fire_start_location r)).

(** A raw row takes part in the comparison when its dwelling type is
    classified ['House'] or ['Purpose Built Flats']. *)
Definition compared (r : raw_row) : Prop :=
  exists s, dwelling_type r = PStr s /\
            (s = "House - single occupancy" \/ starts_with "Purpose Built" s).

Definition comparedb (r : raw_row) : bool :=
  match group_buildings (dwelling_type r) with
  | Ok b => bool_decide (b ∈ ["House"; "Purpose Built Flats"])
  | Raise _ => false
  end.

(** A finite cell between 0 and 100 per cent. *)
Definition is_share (v : fval) : Prop :=
  match v with
  | Tenths t => 0 <= t <= 1000
  | _ => False
  end.

(** Whether the cell computed by [percentage_of] is the one the machine's
    binary64 arithmetic gives, for a non-negative count and a positive
    total. *)
Definition same_as_binary64 (n d : Z) : bool :=
  match percentage_of n (Some d) with
  | Tenths t =>
      PrimFloat.eqb (Binary64.percentage_of n d) (Binary64.of_tenths t)
  | _ => false
  end.

(** ** The query [sql_to_display] *)

Module SqlDisplay.
Import Sql.

(** The query shown on the methodology page: the joins of
    [sql_human_cost], a WHERE without the ['Not known'] test, COUNT( * ) as
    the incident count. *)
Definition where_clause (j : joined) : tv :=
  let '(f, di, ds) := j in
  sql_and (is_not_null (spread_rank ds))
    (sql_and (is_not_null (rescues f)) (is_not_null (cause_of_fire di))).

(** The cause and the count; the three ROUND(AVG(...)) columns are left
    out as in [human_cost_row]. *)
Record display_row : Type := DisplayRow {
  dr_cause_of_fire : option string;
  num_incidents : Z
}.

Definition select (g : option string * list joined) : display_row :=
  DisplayRow g.1 (Z.of_nat (length g.2)).

Definition sql_to_display (db : snapshot) : list display_row :=
  select <$>
    filter (fun g => having g = true)
      (group_by_cause
         (filter (fun j => holds (where_clause j) = true) (from_clause db))).

(** The joined rows of unknown cause that have a spread rank and a rescue
    count. *)
Definition not_known (j : joined) : Prop :=
  spread_rank j.2 <> None /\
  rescues j.1.1 <> None /\
  cause_of_fire j.1.2 = Some "Not known".

#[global] Instance not_known_dec j : Decision (not_known j).
Proof. unfold not_known. apply _. Defined.

(** The rows of [sql_human_cost] as the displayed query would show them. *)
Definition shown (r : human_cost_row) : display_row :=
  DisplayRow (hc_cause_of_fire r) (hc_number_of_incidents r).

(** A snapshot with [n] incidents of unknown cause. *)
Definition unknown_causes (n : nat) : snapshot :=
  Snapshot
    ((fun i => Fact (Z.of_nat i) None None (Some 1) (Some 1) (Some 0) (Some 0))
       <$> seq 0 n)
    [] []
    [Ignition (Some 1) (Some "Not known")]
    [Spread (Some 1) (Some 3)].

End SqlDisplay.

(** ** Calls of [load_data] in sequence, and the cached transform *)

Module Page.
Import Gateway.

Section calls.
Context {Table : Type}.
Variable db : @store Table.

(** The calls [load_data(q)] of a process, one after the other: what each
    returned or raised, and the process afterwards. *)
Fixpoint load_all (qs : list string) (w : world)
    : list (result Table) * world :=
  match qs with
  | [] => ([], w)
  | q :: qs' =>
      let '(r, w1) := load_data db q w in
      let '(rs, w2) := load_all qs' w1 in
      (r :: rs, w2)
  end.

(** The store opens and runs every one of the queries [qs]. *)
Definition available (qs : list string) : Prop :=
  connect db = Ok () /\ forall q, q ∈ qs -> exists t, run db q = Ok t.

(** The bookkeeping of a process that only met an available store: one
    connect and one execution per cached table, nothing left open. *)
Definition tidy (w : world) : Prop :=
  consistent db w /\ executions w = size (cache w) /\
  connects w = size (cache w) /\ open_connections w = 0%nat.

End calls.

Section locations.

(** The store hands out the raw tables of the transform. *)
Variable db : @store (list raw_row).

(** The text of the query [sql_locations], the cache key. *)
Variable sql_locations : string.

(** A process with the cache of [process_location_data], a function
    without arguments: at most one stored value. *)
Record session : Type := Session {
  process : @world (list raw_row);
  locations_cache : option (list chart_row * pivot_table)
}.

(** The body of [process_location_data]: line 124, then the transform on
    the table received. *)
Definition process_location_data_body (w : @world (list raw_row))
    : result (list chart_row * pivot_table) * world :=
  match load_data db sql_locations w with
  | (Ok df_locations_raw, w1) => (process_location_data df_locations_raw, w1)
  | (Raise e, w1) => (Raise e, w1)
  end.

(** [@st.cache_data] on it: a stored value is returned without running the
    body; a value is stored when the body returns, nothing when it
    raises. *)
Definition process_location_data (s : session)
    : result (list chart_row * pivot_table) * session :=
  match locations_cache s with
  | Some out => (Ok out, s)
  | None =>
      match process_location_data_body (process s) with
      | (Ok out, w1) => (Ok out, Session w1 (Some out))
      | (Raise e, w1) => (Raise e, Session w1 None)
      end
  end.

End locations.
End Page.

(** ** [inspect_schema.py] *)

Module InspectSchema.

(** What a call to the database gives the script: rows, or a DuckDB error
    with its message. *)
Inductive duck (A : Type) : Type :=
| Rows (a : A)
| Failed (message : string).
Arguments Rows {A} a.
Arguments Failed {A} message.

(** The database as the script sees it: [duckdb.connect], [SHOW TABLES]
    (the table names), [DESCRIBE t] (column name and type of each column)
    and the rendering [.df().to_string()] of [SELECT * FROM t LIMIT 3]. *)
Record catalog : Type := Catalog {
  opens : duck unit;
  show_tables : duck (list string);
  describe : string -> duck (list (string * string));
  sample : string -> duck string
}.

(** The file [schema_info.txt] and the two handles of the script. *)
Record files : Type := Files {
  schema_info : string;
  file_open : bool;
  connection_open : bool
}.

Definition nl : string := String (ascii_of_nat 10) EmptyString.

(** Lines 9-11: the list of tables. *)
Definition table_list (tables : list string) : string :=
  "TABLES:" +:+ nl +:+
  String.concat "" ((fun t => "- " +:+ t +:+ nl) <$> tables) +:+ nl.

(** Lines 17-20: the columns of one table. *)
Definition column_lines (cols : list (string * string)) : string :=
  String.concat "" ((fun c => c.1 +:+ " (" +:+ c.2 +:+ ")" +:+ nl) <$> cols)
  +:+ nl.

(** Lines 22-28: the sample, or the message of the exception caught. *)
Definition sample_text (c : catalog) (t : string) : string :=
  "--- SAMPLE DATA FOR " +:+ t +:+ " ---" +:+ nl +:+
  match sample c t with
  | Rows s => s
  | Failed m => "Error getting sample: " +:+ m
  end +:+ nl +:+ nl.

(** Lines 14-28, the second loop: what is written, and the message of the
    DuckDB error that ended it, if any.  A failing DESCRIBE ends the loop
    after the heading of its table. *)
Fixpoint sections (c : catalog) (tables : list string)
    : string * option string :=
  match tables with
  | [] => ("", None)
  | t :: ts =>
      let heading := "--- SCHEMA FOR " +:+ t +:+ " ---" +:+ nl in
      match describe c t with
      | Failed m => (heading, Some m)
      | Rows cols =>
          let '(rest, err) := sections c ts in
          (heading +:+ column_lines cols +:+ sample_text c t +:+ rest, err)
      end
  end.

(** Lines 6-28, the body of [with open(...)]. *)
Definition body (c : catalog) : string * option string :=
  match show_tables c with
  | Failed m => ("", Some m)
  | Rows tables =>
      let '(text, err) := sections c tables in
      (table_list tables +:+ text, err)
  end.

(** The script: [None] when it ran to its end, the message of the uncaught
    DuckDB error otherwise; and the files afterwards.  [open(..., 'w')]
    empties the file; leaving the [with] block closes it; nothing closes
    the connection. *)
Definition inspect_schema (c : catalog) (fs : files)
    : option string * files :=
  match opens c with
  | Failed m => (Some m, fs)
  | Rows _ =>
      let '(text, err) := body c in
      (err, Files text false true)
  end.

(** The script ran to its end. *)
Definition completes (c : catalog) (fs : files) : Prop :=
  (inspect_schema c fs).1 = None.

End InspectSchema.

(** * Properties *)

(** The transform on a small table: the bungalow row is filtered out and
    the two absent pairs are filled with 0. *)
Example process_example :
  process_location_data
    [row "House - single occupancy" "Kitchen" 100;
     row "House - single occupancy" "Living Room" 50;
     row "Purpose Built Flats" "Kitchen" 30;
     row "Purpose Built Flats" "Refuse Store" 20;
     row "Bungalow" "Kitchen" 7]
  = Ok ([ChartRow "Communal/Escape Routes" "House" (Tenths 0);
         ChartRow "Kitchen" "House" (Tenths 667);
         ChartRow "Living/Bedroom" "House" (Tenths 333);
         ChartRow "Communal/Escape Routes" "Purpose Built Flats" (Tenths 400);
         ChartRow "Kitchen" "Purpose Built Flats" (Tenths 600);
         ChartRow "Living/Bedroom" "Purpose Built Flats" (Tenths 0)],
        Pivot ["House"; "Purpose Built Flats"]
          [("Communal/Escape Routes", [Tenths 0; Tenths 400]);
           ("Kitchen", [Tenths 667; Tenths 600]);
           ("Living/Bedroom", [Tenths 333; Tenths 0])]).
Proof. vm_compute. reflexivity. Qed.

(** ** Classification *)

Lemma prefix_starts_with lit s :
  String.prefix lit s = true <-> starts_with lit s.
Proof.
  unfold starts_with.
  revert s. induction lit as [|c lit IH]; intros s.
  - destruct s; simpl; split; eauto.
  - destruct s as [|d s]; simpl.
    + split; [discriminate | intros [r Hr]; discriminate].
    + destruct (Ascii.ascii_dec c d) as [->|Hne].
      * rewrite IH. split; intros [r Hr]; exists r.
        -- subst s. reflexivity.
        -- change (String d s = String d (lit +:+ r)) in Hr. congruence.
      * split; [discriminate | intros [r Hr]].
        change (String d s = String c (lit +:+ r)) in Hr. congruence.
Qed.

(** C1.  The building group of a string: ['House'] for exactly
    ['House - single occupancy'], ['Purpose Built Flats'] for every string
    that starts with ['Purpose Built'], ['Other'] for every other string. *)
Theorem group_buildings_spec (s : string) :
  (s = "House - single occupancy" ->
     group_buildings (PStr s) = Ok "House") /\
  (starts_with "Purpose Built" s ->
     group_buildings (PStr s) = Ok "Purpose Built Flats") /\
  (s <> "House - single occupancy" -> ~ starts_with "Purpose Built" s ->
     group_buildings (PStr s) = Ok "Other").
Proof.
  unfold group_buildings, py_eq, startswith; simpl.
  split; [|split].
  - intros ->. reflexivity.
  - intros Hp.
    destruct (String.eqb_spec s "House - single occupancy") as [->|_].
    + destruct Hp as [r Hr]. discriminate.
    + apply prefix_starts_with in Hp. now rewrite Hp.
  - intros Hne Hp.
    destruct (String.eqb_spec s "House - single occupancy") as [E|_];
      [contradiction|].
    destruct (String.prefix "Purpose Built" s) eqn:E; [|reflexivity].
    apply prefix_starts_with in E. contradiction.
Qed.

Lemma group_buildings_spec_witness :
  group_buildings (PStr "House - single occupancy") = Ok "House" /\
  group_buildings (PStr "Purpose Built Low Rise (1-3) Flats/Maisonettes")
    = Ok "Purpose Built Flats" /\
  group_buildings (PStr "Bungalow - single occupancy") = Ok "Other".
Proof.
  split; [|split].
  - apply (proj1 (group_buildings_spec "House - single occupancy")).
    reflexivity.
  - apply (proj1 (proj2 (group_buildings_spec
             "Purpose Built Low Rise (1-3) Flats/Maisonettes"))).
    exists " Low Rise (1-3) Flats/Maisonettes". reflexivity.
  - apply (proj2 (proj2 (group_buildings_spec "Bungalow - single occupancy"))).
    + discriminate.
    + intros [r Hr]. discriminate.
Defined.

Lemma py_in_elem_of (s : string) (lits : list string) :
  py_in (PStr s) lits = true <-> s ∈ lits.
Proof.
  unfold py_in. rewrite existsb_exists. split.
  - intros (lit & Hin & Heq). simpl in Heq. apply String.eqb_eq in Heq.
    subst. now apply list_elem_of_In.
  - intros Hin. exists s. split; [now apply list_elem_of_In|].
    simpl. apply String.eqb_refl.
Qed.

Lemma py_in_not_elem_of (s : string) (lits : list string) :
  py_in (PStr s) lits = false <-> s ∉ lits.
Proof.
  rewrite <- py_in_elem_of. destruct (py_in (PStr s) lits); split; congruence.
Qed.

(** C2.  The location group of a string: ['Kitchen'] for ['Kitchen'],
    ['Living/Bedroom'] for the two living and sleeping rooms,
    ['Communal/Escape Routes'] for the refuse store, corridor and stairs
    labels, ['Other Room/External'] for every other string. *)
Theorem group_locations_spec (s : string) :
  (s = "Kitchen" -> group_locations (PStr s) = "Kitchen") /\
  (s ∈ ["Living Room"; "Bedroom/ Bedsitting Room"] ->
     group_locations (PStr s) = "Living/Bedroom") /\
  (s ∈ ["Refuse Store";
        "Corridor/ Hall/ Open Plan Area/ Reception Area";
        "Stairs/ Under stairs (enclosed area)"] ->
     group_locations (PStr s) = "Communal/Escape Routes") /\
  (s ∉ ["Kitchen"; "Living Room"; "Bedroom/ Bedsitting Room"; "Refuse Store";
        "Corridor/ Hall/ Open Plan Area/ Reception Area";
        "Stairs/ Under stairs (enclosed area)"] ->
     group_locations (PStr s) = "Other Room/External").
Proof.
  split; [|split; [|split]].
  - intros ->. reflexivity.
  - intros Hin. repeat (apply elem_of_cons in Hin as [->|Hin]);
      try reflexivity. now apply elem_of_nil in Hin.
  - intros Hin. repeat (apply elem_of_cons in Hin as [->|Hin]);
      try reflexivity. now apply elem_of_nil in Hin.
  - intros Hnin. unfold group_locations.
    rewrite !not_elem_of_cons in Hnin.
    destruct Hnin as (N1 & N2 & N3 & N4 & N5 & N6 & _).
    assert (Hk : py_eq (PStr s) "Kitchen" = false)
      by (simpl; now apply String.eqb_neq).
    rewrite Hk.
    assert (H1 : py_in (PStr s) ["Living Room"; "Bedroom/ Bedsitting Room"]
                 = false).
    { apply py_in_not_elem_of. rewrite !not_elem_of_cons.
      auto using not_elem_of_nil. }
    rewrite H1.
    assert (H2 : py_in (PStr s)
                   ["Refuse Store";
                    "Corridor/ Hall/ Open Plan Area/ Reception Area";
                    "Stairs/ Under stairs (enclosed area)"] = false).
    { apply py_in_not_elem_of. rewrite !not_elem_of_cons.
      auto using not_elem_of_nil. }
    now rewrite H2.
Qed.

Lemma group_locations_spec_witness :
  group_locations (PStr "Kitchen") = "Kitchen" /\
  group_locations (PStr "Bedroom/ Bedsitting Room") = "Living/Bedroom" /\
  group_locations (PStr "Stairs/ Under stairs (enclosed area)")
    = "Communal/Escape Routes" /\
  group_locations (PStr "Garage") = "Other Room/External".
Proof.
  split; [|split; [|split]].
  - apply (proj1 (group_locations_spec "Kitchen")). reflexivity.
  - apply (proj1 (proj2 (group_locations_spec "Bedroom/ Bedsitting Room"))).
    apply (bool_decide_unpack _). vm_compute. exact I.
  - apply (proj1 (proj2 (proj2 (group_locations_spec
             "Stairs/ Under stairs (enclosed area)")))).
    apply (bool_decide_unpack _). vm_compute. exact I.
  - apply (proj2 (proj2 (proj2 (group_locations_spec "Garage")))).
    apply (bool_decide_unpack _). vm_compute. exact I.
Defined.

(** ** The worked example and the empty table *)

(** C4 (as amended).  With the dwelling types written as the store has them
    (['House - single occupancy'] for the house rows) the example rows give
    the totals House = 150 and Purpose Built Flats = 50 and the percentages
    66.7, 33.3, 60.0 and 40.0. *)
Theorem example_figures : yields_example_figures example_rows.
Proof.
  eexists _, _, _.
  split; [vm_compute; reflexivity|].
  split; [vm_compute; reflexivity|].
  split; [vm_compute; reflexivity|].
  repeat split; apply (bool_decide_unpack _); vm_compute; exact I.
Qed.

(** C4, the claim as worded: a row whose dwelling-type text is just
    ['House'] is classified ['Other'] and filtered out, so no House total
    and no House percentage comes out. *)
Lemma example_figures_literal_fails :
  ~ yields_example_figures example_rows_literal.
Proof.
  intros (df & long & pv & Hc & _ & Ht & _).
  vm_compute in Hc. injection Hc as <-.
  vm_compute in Ht. discriminate Ht.
Qed.

Example example_rows_literal_totals :
  (df ← classify example_rows_literal;
   mret (group_totals (grouped_counts (select_groups df))))
  = Ok [("Purpose Built Flats", 50)].
Proof. vm_compute. reflexivity. Qed.

(** C6.  On the empty table the transform returns an empty long table and
    an empty pivot table. *)
Theorem process_location_data_empty :
  process_location_data [] = Ok ([], Pivot [] []).
Proof. vm_compute. reflexivity. Qed.

(** ** [Series.apply] and [classify] *)

Lemma apply_Forall2 {A B} (f : A -> result B) (l : list A) (ys : list B) :
  apply f l = Ok ys <-> Forall2 (fun x y => f x = Ok y) l ys.
Proof.
  revert ys. induction l as [|x l IH]; intros ys; simpl.
  - split.
    + intros [= <-]. constructor.
    + intros H. inversion H. reflexivity.
  - split.
    + destruct (f x) as [y|e] eqn:Hx; simpl; [|discriminate].
      destruct (apply f l) as [ys'|e] eqn:Hl; simpl; [|discriminate].
      intros [= <-]. constructor; [assumption|]. now apply IH.
    + intros H. inversion H as [|? y ? ys' Hx Hl]; subst.
      rewrite Hx. simpl. apply IH in Hl. rewrite Hl. reflexivity.
Qed.

Lemma apply_pure {A B} (g : A -> B) (l : list A) :
  apply (fun v => Ok (g v)) l = Ok (g <$> l).
Proof.
  induction l as [|x l IH]; simpl; [reflexivity|]. now rewrite IH.
Qed.

Lemma group_buildings_Ok (v : pyval) :
  (exists g, group_buildings v = Ok g) <-> is_str v.
Proof.
  destruct v as [s|]; simpl.
  - split; [easy|intros _]. unfold group_buildings. simpl.
    destruct (String.eqb s _); [eauto|].
    destruct (String.prefix _ s); eauto.
  - split; [|easy]. intros [g Hg]. discriminate.
Qed.

Lemma apply_group_buildings_Ok (l : list pyval) :
  (exists ys, apply group_buildings l = Ok ys) <-> Forall is_str l.
Proof.
  induction l as [|v l IH]; simpl.
  - split; [constructor|eauto].
  - split.
    + intros [ys H].
      destruct (group_buildings v) as [g|e] eqn:Hv; [|discriminate].
      destruct (apply group_buildings l) as [ys'|e] eqn:Hl; [|discriminate].
      constructor; [apply group_buildings_Ok|apply IH]; eauto.
    + intros H. inversion H as [|? ? Hv Hl]; subst.
      apply group_buildings_Ok in Hv as [g ->].
      apply IH in Hl as [ys ->]. simpl. eauto.
Qed.

Lemma classify_Forall2 (t : list raw_row) (df : list grouped_row) :
  classify t = Ok df -> Forall2 classified t df.
Proof.
  unfold classify. rewrite apply_pure.
  destruct (apply group_buildings (dwelling_type <$> t)) as [bgs|e] eqn:Hb;
    simpl; [|discriminate].
  intros [= <-]. apply apply_Forall2 in Hb.
  revert bgs Hb. induction t as [|r t IH]; intros bgs Hb.
  - inversion Hb. constructor.
  - inversion Hb as [|? b ? bgs' Hr Ht]; subst. simpl.
    constructor; [|now apply IH]. now split.
Qed.

Lemma classify_Ok (t : list raw_row) :
  (exists df, classify t = Ok df) <->
  Forall (fun r => is_str (dwelling_type r)) t.
Proof.
  transitivity (Forall is_str (dwelling_type <$> t));
    [|now rewrite Forall_fmap].
  rewrite <- apply_group_buildings_Ok.
  unfold classify. rewrite apply_pure.
  destruct (apply group_buildings (dwelling_type <$> t)) as [bgs|e]; simpl.
  - split; eauto.
  - split; intros [x Hx]; discriminate.
Qed.

Lemma group_locations_label (v : pyval) :
  group_locations v ∈ location_labels.
Proof.
  unfold group_locations, location_labels.
  repeat match goal with |- context [if ?b then _ else _] => destruct b end;
    rewrite !elem_of_cons; auto 6.
Qed.

(** ** Group-by and pivot *)

Section groupby.
Context {K : Type} `{EqDecision K} (R : relation K)
        `{forall x y, Decision (R x y)}.

Lemma sorted_unique_Permutation (l : list K) :
  sorted_unique R l ≡ₚ remove_dups l.
Proof. apply merge_sort_Permutation. Qed.

Lemma elem_of_sorted_unique (l : list K) (x : K) :
  x ∈ sorted_unique R l <-> x ∈ l.
Proof. now rewrite sorted_unique_Permutation, elem_of_remove_dups. Qed.

Lemma NoDup_sorted_unique (l : list K) : NoDup (sorted_unique R l).
Proof. rewrite sorted_unique_Permutation. apply NoDup_remove_dups. Qed.

Lemma groupby_sum_keys (rows : list (K * Z)) :
  (groupby_sum R rows).*1 = sorted_unique R (rows.*1).
Proof.
  unfold groupby_sum.
  induction (sorted_unique R (rows.*1)) as [|k ks IH]; csimpl;
    [reflexivity|]. now rewrite IH.
Qed.

Lemma NoDup_groupby_sum (rows : list (K * Z)) :
  NoDup (groupby_sum R rows).*1.
Proof. rewrite groupby_sum_keys. apply NoDup_sorted_unique. Qed.

Lemma elem_of_groupby_sum (rows : list (K * Z)) (k : K) (v : Z) :
  (k, v) ∈ groupby_sum R rows <->
  k ∈ rows.*1 /\ v = sum64 ((filter (fun r => r.1 = k) rows).*2).
Proof.
  unfold groupby_sum. rewrite list_elem_of_fmap. split.
  - intros (k' & Heq & Hk). rewrite elem_of_sorted_unique in Hk.
    injection Heq as -> ->. now split.
  - intros [Hk ->]. exists k. split; [reflexivity|].
    now apply elem_of_sorted_unique.
Qed.
End groupby.

Lemma filter_fmap {A B} (f : A -> B) (P : B -> Prop)
    `{forall y, Decision (P y)} (l : list A) :
  filter P (f <$> l) = f <$> filter (fun x => P (f x)) l.
Proof.
  induction l as [|x l IH]; [reflexivity|]. csimpl.
  rewrite !filter_cons. destruct (decide (P (f x))); csimpl; now rewrite IH.
Qed.

Lemma NoDup_grouped_counts (df_groups : list grouped_row) :
  NoDup (grouped_counts df_groups).*1.
Proof. apply NoDup_groupby_sum. Qed.

Lemma normalize_keys (gc : list (string * string * Z)) :
  (fun r => (pr_location_group r, pr_building_group r)) <$> normalize gc
  = (fun k : string * string => (k.2, k.1)) <$> gc.*1.
Proof.
  unfold normalize. cbv zeta.
  generalize (list_to_map (group_totals gc) : gmap string Z). intros m.
  induction gc as [|r gc IH]; csimpl; [reflexivity|]. now rewrite IH.
Qed.

#[local] Instance swap_inj :
  Inj (=) (=) (fun k : string * string => (k.2, k.1)).
Proof. intros [a b] [c d] [= -> ->]. reflexivity. Qed.

Lemma NoDup_normalize_keys (df_groups : list grouped_row) :
  NoDup ((fun r => (pr_location_group r, pr_building_group r))
           <$> normalize (grouped_counts df_groups)).
Proof.
  rewrite normalize_keys. apply (NoDup_fmap_2 _), NoDup_grouped_counts.
Qed.

(** After a group-by the pivot never meets a repeated pair. *)
Lemma pivot_normalize_Ok (df_groups : list grouped_row) :
  exists pv, pivot (normalize (grouped_counts df_groups)) = Ok pv.
Proof.
  unfold pivot. rewrite decide_True by apply NoDup_normalize_keys. eauto.
Qed.

(** ** Shape of the two output tables *)

Lemma filter_all {A} (P : A -> Prop) `{forall x, Decision (P x)} (l : list A) :
  Forall P l -> filter P l = l.
Proof.
  induction 1 as [|x l Hx _ IH]; [reflexivity|].
  rewrite filter_cons, decide_True by assumption. now rewrite IH.
Qed.

Lemma drop_absent (label : string) (pv : pivot_table) :
  label ∉ index pv -> drop label pv = pv.
Proof.
  intros Hn. destruct pv as [cols rs]. unfold drop, index in *. simpl in *.
  f_equal. apply filter_all. apply Forall_forall. intros r Hr Heq.
  apply Hn. rewrite <- Heq. now apply list_elem_of_fmap_2.
Qed.

Lemma drop_index (label : string) (pv : pivot_table) :
  index (drop label pv) = filter (fun l => l <> label) (index pv).
Proof. unfold index, drop. simpl. now rewrite filter_fmap. Qed.

Lemma fillna_index (v : fval) (pv : pivot_table) :
  index (fillna v pv) = index pv.
Proof.
  unfold index, fillna. simpl.
  induction (rows pv) as [|r rs IH]; csimpl; [reflexivity|]. now rewrite IH.
Qed.

Lemma length_join_imap {A B} (f : nat -> A -> list B) (l : list A) (n : nat) :
  (forall j x, length (f j x) = n) ->
  length (mjoin (imap f l)) = (length l * n)%nat.
Proof.
  revert f. induction l as [|x l IH]; intros f Hf; [reflexivity|].
  csimpl. rewrite length_app, Hf, IH; [lia|]. intros j y. apply Hf.
Qed.

Lemma length_melt (pv : pivot_table) :
  length (melt pv) = (length (index pv) * length (columns pv))%nat.
Proof.
  unfold melt, index.
  rewrite (length_join_imap _ _ (length (rows pv))).
  - rewrite length_fmap. lia.
  - intros j b. now rewrite length_fmap.
Qed.

Lemma pairs_join_imap (f : nat -> string -> list chart_row)
    (cols idx : list string) :
  (forall j b, pairs (f j b) = (fun l => (l, b)) <$> idx) ->
  pairs (mjoin (imap f cols)) = cols ≫= (fun b => (fun l => (l, b)) <$> idx).
Proof.
  revert f. induction cols as [|b cols IH]; intros f Hf; [reflexivity|].
  csimpl. unfold pairs in *. rewrite fmap_app, Hf. f_equal.
  apply IH. intros j b'. apply Hf.
Qed.

(** The long table lists the columns one after the other, the index under
    each. *)
Lemma pairs_melt (pv : pivot_table) :
  pairs (melt pv)
  = columns pv ≫= (fun b => (fun l => (l, b)) <$> index pv).
Proof.
  unfold melt. apply pairs_join_imap. intros j b.
  unfold pairs, index. rewrite <- !list_fmap_compose.
  apply list_fmap_ext. intros i r _. reflexivity.
Qed.

Lemma elem_of_pairs_melt (pv : pivot_table) (l b : string) :
  (l, b) ∈ pairs (melt pv) <-> l ∈ index pv /\ b ∈ columns pv.
Proof.
  rewrite pairs_melt, list_elem_of_bind. split.
  - intros (b' & Hin & Hb).
    apply list_elem_of_fmap in Hin as (l' & [= -> ->] & Hl). now split.
  - intros [Hl Hb]. exists b. split; [|assumption].
    now apply (list_elem_of_fmap_2 (fun l => (l, b))).
Qed.

Lemma NoDup_pairs_melt (pv : pivot_table) :
  NoDup (index pv) -> NoDup (columns pv) -> NoDup (pairs (melt pv)).
Proof.
  intros Hi Hc. rewrite pairs_melt. apply NoDup_bind; [| |assumption].
  - intros b1 b2 p _ _ H1 H2.
    apply list_elem_of_fmap in H1 as (l1 & -> & _).
    apply list_elem_of_fmap in H2 as (l2 & [= _ ->] & _). reflexivity.
  - intros b _. apply NoDup_fmap_2; [|assumption].
    intros l1 l2 [= ->]. reflexivity.
Qed.

Lemma elem_of_melt (pv : pivot_table) (r : chart_row) :
  r ∈ melt pv <->
  exists j b rw, columns pv !! j = Some b /\ rw ∈ rows pv /\
                 r = ChartRow rw.1 b (default NaN (rw.2 !! j)).
Proof.
  unfold melt. rewrite list_elem_of_join. split.
  - intros (rs & Hr & Hrs).
    apply elem_of_lookup_imap in Hrs as (j & b & -> & Hj).
    apply list_elem_of_fmap in Hr as (rw & -> & Hrw). eauto 6.
  - intros (j & b & rw & Hj & Hrw & ->).
    eexists. split; [|apply elem_of_lookup_imap; eauto].
    apply list_elem_of_fmap. eauto.
Qed.

Lemma find_cell_None (df : list pct_row) (l b : string) :
  (forall rw, rw ∈ df ->
     ~ (pr_location_group rw = l /\ pr_building_group rw = b)) ->
  find_cell df l b = None.
Proof.
  intros Hno. unfold find_cell.
  destruct (filter _ df) as [|rw rs] eqn:Hf; [reflexivity|].
  assert (Hin : rw ∈ filter
            (fun r => pr_location_group r = l /\ pr_building_group r = b) df)
    by (rewrite Hf; left).
  apply list_elem_of_filter in Hin as [Hk Hin]. now apply Hno in Hin.
Qed.

Lemma find_cell_Some (df : list pct_row) (rw : pct_row) :
  NoDup ((fun r => (pr_location_group r, pr_building_group r)) <$> df) ->
  rw ∈ df ->
  find_cell df (pr_location_group rw) (pr_building_group rw)
  = Some (percentage rw).
Proof.
  unfold find_cell. induction df as [|r df IH]; intros Hnd Hin.
  - now apply elem_of_nil in Hin.
  - csimpl in Hnd. apply NoDup_cons in Hnd as [Hr Hnd].
    rewrite filter_cons. destruct (decide _) as [[Hl Hb]|Hne].
    + simpl. apply elem_of_cons in Hin as [->|Hin]; [reflexivity|].
      exfalso. apply Hr. rewrite Hl, Hb.
      now apply (list_elem_of_fmap_2
                   (fun r => (pr_location_group r, pr_building_group r))).
    + apply elem_of_cons in Hin as [->|Hin]; [now destruct Hne|].
      now apply IH.
Qed.

Lemma process_location_data_pivoted (t : list raw_row) (df : list grouped_row) :
  classify t = Ok df ->
  process_location_data t
  = Ok (melt (pivoted (normalize (grouped_counts (select_groups df)))),
        pivoted (normalize (grouped_counts (select_groups df)))).
Proof.
  intros Hc. unfold process_location_data. rewrite Hc. simpl.
  unfold pivot. rewrite decide_True by apply NoDup_normalize_keys.
  reflexivity.
Qed.

Lemma fst_fmap_pair {A B} (g : A -> B) (l : list A) :
  ((fun x => (x, g x)) <$> l).*1 = l.
Proof.
  induction l as [|x l IH]; csimpl; [reflexivity|]. now rewrite IH.
Qed.

Lemma pivoted_columns (df : list pct_row) :
  columns (pivoted df) = sorted_unique str_le (pr_building_group <$> df).
Proof. reflexivity. Qed.

Lemma pivoted_index (df : list pct_row) :
  index (pivoted df)
  = filter (fun l => l <> "Other Room/External")
      (sorted_unique str_le (pr_location_group <$> df)).
Proof.
  unfold pivoted. rewrite drop_index, fillna_index. f_equal.
  unfold index. simpl. apply fst_fmap_pair.
Qed.

Lemma pivoted_cell (df : list pct_row) (r : chart_row) :
  r ∈ melt (pivoted df) ->
  cr_percentage r
  = fill (Tenths 0)
      (default NaN
         (find_cell df (cr_location_group r) (cr_building_group r))).
Proof.
  intros Hr. apply elem_of_melt in Hr as (j & b & rw & Hj & Hrw & ->).
  rewrite pivoted_columns in Hj. unfold pivoted, drop, fillna in Hrw.
  simpl in Hrw. apply list_elem_of_filter in Hrw as [_ Hrw].
  apply list_elem_of_fmap in Hrw as (rw' & -> & Hrw').
  apply list_elem_of_fmap in Hrw' as (l & -> & _). simpl.
  rewrite !list_lookup_fmap, Hj. reflexivity.
Qed.

(** C5.  Whenever the transform returns (every dwelling type is a string):
    the pivot table has no ['Other Room/External'] row, and dropping an
    absent label changes nothing; the long table has one row for each pair
    of a remaining location group and a building-group column, that is
    (remaining location groups) x (building-group columns) rows; a pair
    that was counted carries its percentage and a pair that was not carries
    0. *)
Theorem long_table_shape (t : list raw_row) :
  Forall (fun r => is_str (dwelling_type r)) t ->
  exists df long pv,
    classify t = Ok df /\
    process_location_data t = Ok (long, pv) /\
    ("Other Room/External" ∉ index pv) /\
    (forall pv', "Other Room/External" ∉ index pv' ->
                 drop "Other Room/External" pv' = pv') /\
    (forall l, l ∈ index pv <->
       l ∈ pr_location_group
             <$> normalize (grouped_counts (select_groups df)) /\
       l <> "Other Room/External") /\
    (forall b, b ∈ columns pv <->
       b ∈ pr_building_group
             <$> normalize (grouped_counts (select_groups df))) /\
    length long = (length (index pv) * length (columns pv))%nat /\
    NoDup (pairs long) /\
    (forall l b,
       (l, b) ∈ pairs long <-> l ∈ index pv /\ b ∈ columns pv) /\
    (forall r rw, r ∈ long ->
       rw ∈ normalize (grouped_counts (select_groups df)) ->
       pr_location_group rw = cr_location_group r ->
       pr_building_group rw = cr_building_group r ->
       cr_percentage r = fill (Tenths 0) (percentage rw)) /\
    (forall r, r ∈ long ->
       (forall rw, rw ∈ normalize (grouped_counts (select_groups df)) ->
          ~ (pr_location_group rw = cr_location_group r /\
             pr_building_group rw = cr_building_group r)) ->
       cr_percentage r = Tenths 0).
Proof.
  intros Hs. apply classify_Ok in Hs as [df Hc].
  exists df. eexists _, _. split; [exact Hc|].
  split; [apply (process_location_data_pivoted _ _ Hc)|].
  set (norm := normalize (grouped_counts (select_groups df))).
  split; [|split; [|split; [|split; [|split; [|split; [|split; [|split]]]]]]].
  - rewrite pivoted_index. intros Hin.
    apply list_elem_of_filter in Hin as [Hne _]. now apply Hne.
  - intros pv'. apply drop_absent.
  - intros l. rewrite pivoted_index, list_elem_of_filter.
    rewrite elem_of_sorted_unique. tauto.
  - intros b. rewrite pivoted_columns. apply elem_of_sorted_unique.
  - apply length_melt.
  - apply NoDup_pairs_melt.
    + rewrite pivoted_index. apply NoDup_filter, NoDup_sorted_unique.
    + rewrite pivoted_columns. apply NoDup_sorted_unique.
  - intros l b. apply elem_of_pairs_melt.
  - intros r rw Hr Hrw Hl Hb. rewrite (pivoted_cell _ _ Hr), <- Hl, <- Hb.
    rewrite (find_cell_Some norm rw); [reflexivity| |assumption].
    apply NoDup_normalize_keys.
  - intros r Hr Hno. rewrite (pivoted_cell _ _ Hr).
    now rewrite (find_cell_None norm _ _ Hno).
Qed.

Lemma long_table_shape_witness :
  exists df long pv,
    classify example_rows = Ok df /\
    process_location_data example_rows = Ok (long, pv) /\
    ("Other Room/External" ∉ index pv) /\
    length long = (length (index pv) * length (columns pv))%nat.
Proof.
  destruct (long_table_shape example_rows) as
    (df & long & pv & Hc & Hp & Hx & _ & _ & _ & Hlen & _).
  - repeat constructor.
  - exists df, long, pv. repeat split; assumption.
Defined.

(** ** Arithmetic of the normalize step *)

Lemma wrap64_small (z : Z) : - 2 ^ 63 <= z < 2 ^ 63 -> wrap64 z = z.
Proof. intros Hz. unfold wrap64. rewrite Z.mod_small; lia. Qed.

Lemma sumZ_nonneg (l : list Z) : Forall (fun v => 0 <= v) l -> 0 <= sumZ l.
Proof. induction 1; simpl; lia. Qed.

Lemma sumZ_app (l k : list Z) : sumZ (l ++ k) = sumZ l + sumZ k.
Proof. induction l as [|x l IH]; simpl; lia. Qed.

Lemma sumZ_Permutation (l k : list Z) : l ≡ₚ k -> sumZ l = sumZ k.
Proof. induction 1; simpl; lia. Qed.

Lemma sum64_exact (l : list Z) :
  Forall (fun v => 0 <= v) l -> sumZ l < 2 ^ 63 -> sum64 l = sumZ l.
Proof.
  unfold sum64. intros Hl.
  enough (Hgen : forall acc, 0 <= acc -> acc + sumZ l < 2 ^ 63 ->
            fold_left (fun a v => wrap64 (a + v)) l acc = acc + sumZ l).
  { intros Hb. rewrite Hgen; lia. }
  induction Hl as [|v l Hv Hl IH]; intros acc Hacc Hb; simpl in *; [lia|].
  pose proof (sumZ_nonneg l Hl) as Hs.
  rewrite wrap64_small by lia. rewrite IH; lia.
Qed.

(** The rounded quotient is within half a unit of the exact one. *)
Lemma round_half_even_bound (num den : Z) :
  0 < den ->
  - den <= 2 * (round_half_even num den * den - num) <= den.
Proof.
  intros Hd. unfold round_half_even.
  pose proof (Z.div_mod num den ltac:(lia)) as Hdm.
  pose proof (Z.mod_pos_bound num den Hd) as Hr.
  destruct (2 * (num mod den) <? den) eqn:E1;
    [apply Z.ltb_lt in E1; nia|apply Z.ltb_ge in E1].
  destruct (den <? 2 * (num mod den)) eqn:E2;
    [apply Z.ltb_lt in E2; nia|apply Z.ltb_ge in E2].
  destruct (Z.even (num / den)); nia.
Qed.

(** ** Rounding error of the percentage column *)

(** Scaling keeps a positive fraction positive. *)
Lemma scaled_pos (num den e : Z) :
  0 < num -> 0 < den -> 0 < (scaled num den e).1 /\ 0 < (scaled num den e).2.
Proof.
  intros Hn Hd. unfold scaled. destruct (0 <=? e) eqn:E; simpl.
  - apply Z.leb_le in E. pose proof (Z.pow_pos_nonneg 2 e). nia.
  - apply Z.leb_gt in E. pose proof (Z.pow_pos_nonneg 2 (- e)). nia.
Qed.

(** One binade below the first guess the scaled fraction is at least 2^52. *)
Lemma scaled_below (num den : Z) :
  0 < num -> 0 < den ->
  let s := scaled num den (Z.log2 num - Z.log2 den - 52 - 1) in
  2 ^ 52 * s.2 <= s.1.
Proof.
  intros Hn Hd.
  destruct (Z.log2_spec num Hn) as [Ha _].
  destruct (Z.log2_spec den Hd) as [_ Hb].
  pose proof (Z.log2_nonneg num) as Ha0.
  pose proof (Z.log2_nonneg den) as Hb0.
  set (a := Z.log2 num) in *. set (b := Z.log2 den) in *.
  unfold scaled. destruct (0 <=? a - b - 52 - 1) eqn:E; simpl.
  - apply Z.leb_le in E.
    assert (H2 : 2 ^ 52 * 2 ^ Z.succ b * 2 ^ (a - b - 52 - 1) = 2 ^ a).
    { rewrite <- !Z.pow_add_r by lia. f_equal. lia. }
    pose proof (Z.pow_pos_nonneg 2 (a - b - 52 - 1)).
    nia.
  - apply Z.leb_gt in E.
    assert (H2 : 2 ^ a * 2 ^ (- (a - b - 52 - 1)) = 2 ^ 52 * 2 ^ Z.succ b).
    { rewrite <- !Z.pow_add_r by lia. f_equal. lia. }
    pose proof (Z.pow_pos_nonneg 2 (- (a - b - 52 - 1))).
    nia.
Qed.

(** At the chosen exponent the scaled fraction is at least 2^52. *)
Lemma ulp_exponent_normal (num den : Z) :
  0 < num -> 0 < den ->
  let s := scaled num den (ulp_exponent num den) in
  2 ^ 52 * s.2 <= s.1.
Proof.
  intros Hn Hd. unfold ulp_exponent.
  destruct (2 ^ 52 * _ <=? _) eqn:E.
  - now apply Z.leb_le in E.
  - now apply scaled_below.
Qed.

(** The chosen exponent leaves a significand of exactly 53 bits. *)
Lemma ulp_exponent_binade (num den : Z) :
  0 < num -> 0 < den ->
  let s := scaled num den (ulp_exponent num den) in
  2 ^ 52 * s.2 <= s.1 < 2 ^ 53 * s.2.
Proof.
  intros Hn Hd. split; [now apply ulp_exponent_normal|].
  unfold ulp_exponent.
  destruct (Z.log2_spec num Hn) as [_ Ha].
  destruct (Z.log2_spec den Hd) as [Hb _].
  pose proof (Z.log2_nonneg num) as Ha0.
  pose proof (Z.log2_nonneg den) as Hb0.
  set (a := Z.log2 num) in *. set (b := Z.log2 den) in *.
  set (e := a - b - 52).
  assert (Hup : (scaled num den e).1 < 2 ^ 53 * (scaled num den e).2).
  { unfold scaled. destruct (0 <=? e) eqn:E; simpl.
    - apply Z.leb_le in E.
      assert (H2 : 2 ^ 53 * 2 ^ b * 2 ^ e = 2 ^ Z.succ a).
      { rewrite <- !Z.pow_add_r by lia. f_equal. lia. }
      pose proof (Z.pow_pos_nonneg 2 e). nia.
    - apply Z.leb_gt in E.
      assert (H2 : 2 ^ Z.succ a * 2 ^ (- e) = 2 ^ 53 * 2 ^ b).
      { rewrite <- !Z.pow_add_r by lia. f_equal. lia. }
      pose proof (Z.pow_pos_nonneg 2 (- e)). nia. }
  destruct (2 ^ 52 * _ <=? _) eqn:E; [exact Hup|].
  apply Z.leb_gt in E. clear Hup. revert E. unfold scaled.
  destruct (0 <=? e) eqn:E1, (0 <=? e - 1) eqn:E2; simpl;
    rewrite ?Z.leb_le, ?Z.leb_gt in *.
  - replace e with (Z.succ (e - 1)) at 1 by lia.
    rewrite Z.pow_succ_r by lia. lia.
  - assert (e = 0) as -> by lia. simpl. lia.
  - lia.
  - replace (- (e - 1)) with (Z.succ (- e)) by lia.
    rewrite Z.pow_succ_r by lia. lia.
Qed.

(** Rounding a positive fraction to binary64 changes it by at most one part
    in 2^53. *)
Lemma b64_pos_error (num den : Z) :
  0 < num -> 0 < den ->
  let p := b64_pos num den in
  0 < p.1 /\ 0 < p.2 /\
  2 ^ 53 * Z.abs (p.1 * den - num * p.2) <= num * p.2.
Proof.
  intros Hn Hd. unfold b64_pos.
  pose proof (ulp_exponent_normal num den Hn Hd) as Hs. simpl in Hs.
  set (e := ulp_exponent num den) in *.
  destruct (scaled_pos num den e Hn Hd) as [Hs1 Hs2].
  pose proof (round_half_even_bound (scaled num den e).1 _ Hs2) as Hm.
  set (m := round_half_even _ _) in *.
  assert (Hm0 : 0 < m) by nia.
  unfold scaled in *. destruct (0 <=? e) eqn:E; simpl in *.
  - apply Z.leb_le in E. pose proof (Z.pow_pos_nonneg 2 e).
    split; [nia|]. split; [lia|]. nia.
  - apply Z.leb_gt in E. pose proof (Z.pow_pos_nonneg 2 (- e)).
    split; [lia|]. split; [lia|]. nia.
Qed.

Section binary64_error.
Local Open Scope R_scope.

(** The same over the reals: rounding multiplies by a factor within the
    unit roundoff of 1. *)
Lemma b64_near (num den : Z) :
  (0 < num)%Z -> (0 < den)%Z ->
  let p := b64 num den in
  let q := IZR num / IZR den in
  (0 < p.1)%Z /\ (0 < p.2)%Z /\
  exists f, value p = q * f /\ 1 - u64 <= f <= 1 + u64.
Proof.
  intros Hn Hd. unfold b64.
  destruct (num =? 0)%Z eqn:E0; [apply Z.eqb_eq in E0; lia|].
  destruct (0 <? num)%Z eqn:E1; [|apply Z.ltb_ge in E1; lia].
  destruct (b64_pos_error num den Hn Hd) as (H1 & H2 & He).
  destruct (b64_pos num den) as [p1 p2]. simpl in *.
  split; [exact H1|]. split; [exact H2|].
  unfold value, u64. simpl.
  apply IZR_lt in Hn, Hd, H1, H2.
  assert (Hlo : (- (num * p2) <= 2 ^ 53 * (p1 * den - num * p2))%Z) by lia.
  assert (Hhi : (2 ^ 53 * (p1 * den - num * p2) <= num * p2)%Z) by lia.
  apply IZR_le in Hlo, Hhi.
  rewrite ?mult_IZR, ?opp_IZR, ?minus_IZR, ?mult_IZR in Hlo.
  rewrite ?mult_IZR, ?opp_IZR, ?minus_IZR, ?mult_IZR in Hhi.
  set (N := IZR num) in *. set (D := IZR den) in *.
  set (P1 := IZR p1) in *. set (P2 := IZR p2) in *.
  set (K := IZR (2 ^ 53)) in *.
  assert (HK : 0 < K) by (apply IZR_lt; reflexivity).
  assert (Hq : P1 / P2 - N / D = (K * (P1 * D - N * P2)) / (K * P2 * D)).
  { field. lra. }
  assert (Hw : N / D * / K = (N * P2) / (K * P2 * D)).
  { field. lra. }
  assert (Hpos : 0 < / (K * P2 * D)).
  { apply Rinv_0_lt_compat.
    apply Rmult_lt_0_compat; [apply Rmult_lt_0_compat|]; assumption. }
  assert (Hb : - (N / D * / K) <= P1 / P2 - N / D <= N / D * / K).
  { rewrite Hq, Hw. unfold Rdiv. set (c := / (K * P2 * D)) in *.
    pose proof (Rmult_le_compat_r c _ _ (Rlt_le _ _ Hpos) Hlo).
    pose proof (Rmult_le_compat_r c _ _ (Rlt_le _ _ Hpos) Hhi).
    split; lra. }
  assert (Hq0 : 0 < N / D) by now apply Rdiv_lt_0_compat.
  exists (P1 / P2 * / (N / D)). split; [field; lra|].
  assert (Hi : 0 < / (N / D)) by now apply Rinv_0_lt_compat.
  assert (H1' : 1 = N / D * / (N / D)) by (field; lra).
  set (v := P1 / P2) in *. set (q := N / D) in *. set (i := / q) in *.
  destruct Hb as [Hb1 Hb2].
  pose proof (Rmult_le_compat_r i _ _ (Rlt_le _ _ Hi) Hb1).
  pose proof (Rmult_le_compat_r i _ _ (Rlt_le _ _ Hi) Hb2).
  split; nra.
Qed.

(** [rint] moves a number by at most one half. *)
Lemma rint_near (y : Z * Z) :
  (0 < y.2)%Z ->
  - (1 / 2) <= IZR (round_half_even y.1 y.2) - value y <= 1 / 2.
Proof.
  intros Hy. pose proof (round_half_even_bound y.1 y.2 Hy) as [Hlo Hhi].
  apply IZR_le in Hlo, Hhi. apply IZR_lt in Hy.
  rewrite ?mult_IZR, ?opp_IZR, ?minus_IZR, ?mult_IZR in Hlo.
  rewrite ?mult_IZR, ?opp_IZR, ?minus_IZR, ?mult_IZR in Hhi.
  unfold value.
  set (t := IZR (round_half_even _ _)) in *.
  set (Y1 := IZR y.1) in *. set (Y2 := IZR y.2) in *.
  assert (Hq : t - Y1 / Y2 = (t * Y2 - Y1) * / Y2) by (field; lra).
  assert (Hpos : 0 < / Y2) by now apply Rinv_0_lt_compat.
  assert (Hh : 1 / 2 = (Y2 / 2) * / Y2) by (field; lra).
  rewrite Hq, Hh. unfold Rdiv. set (c := / Y2) in *.
  pose proof (Rmult_le_compat_r c _ _ (Rlt_le _ _ Hpos) Hlo).
  pose proof (Rmult_le_compat_r c _ _ (Rlt_le _ _ Hpos) Hhi).
  split; lra.
Qed.

(** The unit roundoff is below a millionth. *)
Lemma u64_small : 0 < u64 <= 1 / 1000000.
Proof.
  unfold u64. split.
  - apply Rinv_0_lt_compat, IZR_lt. reflexivity.
  - replace (1 / 1000000) with (/ 1000000) by lra.
    apply Rinv_le_contravar; [lra|]. apply IZR_le. vm_compute. discriminate.
Qed.

(** Three roundings above and one below the fraction bar. *)
Lemma four_roundings (fa fb fx fy : R) :
  1 - u64 <= fa <= 1 + u64 -> 1 - u64 <= fb <= 1 + u64 ->
  1 - u64 <= fx <= 1 + u64 -> 1 - u64 <= fy <= 1 + u64 ->
  1 - 1 / 100000 <= fa / fb * fx * fy <= 1 + 1 / 100000.
Proof.
  pose proof u64_small as [Hu0 Hu1]. intros Ha Hb Hx Hy.
  assert (H1 : 1 - 3 / 1000000 <= fa * fx <= 1 + 3 / 1000000) by nra.
  set (p1 := fa * fx) in *.
  assert (H2 : 1 - 5 / 1000000 <= p1 * fy <= 1 + 5 / 1000000) by nra.
  set (p2 := p1 * fy) in *.
  assert (Hg : fa / fb * fx * fy * fb = p2) by (unfold p2, p1; field; lra).
  set (g := fa / fb * fx * fy) in *.
  split; nra.
Qed.

(** The scaled quotient before [rint] is within 1/8 of the exact one. *)
Lemma scaled_quotient_near (n d : Z) :
  (0 < n <= d)%Z -> (100 * n < 2 ^ 63)%Z ->
  let x := b64_div (b64 (wrap64 (100 * n)) 1) (b64 d 1) in
  let y := b64 (10 * x.1) x.2 in
  (0 < y.2)%Z /\
  - (1 / 8) <= value y - 1000 * IZR n / IZR d <= 1 / 8.
Proof.
  intros Hn Hb. rewrite wrap64_small by lia.
  destruct (b64_near (100 * n) 1 ltac:(lia) ltac:(lia))
    as (Ha1 & Ha2 & fa & Ha & Hfa).
  destruct (b64_near d 1 ltac:(lia) ltac:(lia))
    as (Hb1 & Hb2 & fb & Hbb & Hfb).
  destruct (b64 (100 * n) 1) as [a1 a2], (b64 d 1) as [b1 b2].
  unfold b64_div. simpl in *.
  destruct (0 <? b1)%Z eqn:E; [|apply Z.ltb_ge in E; lia].
  destruct (b64_near (a1 * b2) (a2 * b1) ltac:(nia) ltac:(nia))
    as (Hx1 & Hx2 & fx & Hx & Hfx).
  destruct (b64 (a1 * b2) (a2 * b1)) as [x1 x2]. simpl in *.
  destruct (b64_near (10 * x1) x2 ltac:(lia) ltac:(lia))
    as (Hy1 & Hy2 & fy & Hy & Hfy).
  destruct (b64 (10 * x1) x2) as [y1 y2]. simpl in *.
  split; [exact Hy2|].
  unfold value in *. simpl in *.
  rewrite !mult_IZR in *.
  pose proof u64_small as [Hu0 Hu1].
  assert (Hn0 : 0 < IZR n) by (apply IZR_lt; lia).
  assert (Hd0 : 0 < IZR d) by (apply IZR_lt; lia).
  assert (Hnd : IZR n <= IZR d) by (apply IZR_le; lia).
  apply IZR_lt in Ha1, Ha2, Hb1, Hb2, Hx1, Hx2, Hy1, Hy2.
  pose proof (four_roundings fa fb fx fy Hfa Hfb Hfx Hfy) as Hg.
  set (r := IZR n / IZR d).
  assert (Hr : 0 < r <= 1).
  { unfold r. split; [now apply Rdiv_lt_0_compat|].
    apply Rmult_le_reg_r with (IZR d); [assumption|].
    unfold Rdiv. rewrite Rmult_assoc, Rinv_l by lra. lra. }
  assert (HY : IZR y1 / IZR y2 = 1000 * r * (fa / fb * fx * fy)).
  { rewrite Hy.
    replace (10 * IZR x1 / IZR x2) with (10 * (IZR x1 / IZR x2))
      by (field; lra).
    rewrite Hx.
    replace (IZR a1 * IZR b2 / (IZR a2 * IZR b1))
      with ((IZR a1 / IZR a2) / (IZR b1 / IZR b2)) by (field; lra).
    rewrite Ha, Hbb. unfold r. field. lra. }
  rewrite HY.
  replace (1000 * IZR n / IZR d) with (1000 * r) by (unfold r; field; lra).
  set (g := fa / fb * fx * fy) in *.
  split; nra.
Qed.

End binary64_error.

(** A finite share of a positive total is rounded to a number of tenths
    within 5/8 of a tenth of the exact quotient: half a tenth from [rint],
    the rest from the four binary64 roundings before it. *)
Lemma percentage_of_near (n d : Z) :
  0 < n <= d -> 100 * n < 2 ^ 63 ->
  exists t,
    percentage_of n (Some d) = Tenths t /\
    8 * Z.abs (t * d - 1000 * n) <= 5 * d.
Proof.
  intros Hn Hb. unfold percentage_of.
  destruct (d =? 0) eqn:E0; [apply Z.eqb_eq in E0; lia|].
  eexists. split; [reflexivity|].
  destruct (scaled_quotient_near n d Hn Hb) as [Hy2 Hy]. simpl in Hy2, Hy.
  set (y := b64 _ _) in *.
  pose proof (rint_near y Hy2) as Ht.
  set (t := round_half_even _ _) in *.
  assert (Hd0 : (0 < IZR d)%R) by (apply IZR_lt; lia).
  assert (Hq : (IZR t - 1000 * IZR n / IZR d
                = (IZR t * IZR d - 1000 * IZR n) * / IZR d)%R)
    by (field; lra).
  assert (Hlo : (- (5 * IZR d) <= 8 * (IZR t * IZR d - 1000 * IZR n))%R).
  { assert (H : (- (5 / 8) <= IZR t - 1000 * IZR n / IZR d)%R) by lra.
    rewrite Hq in H.
    apply Rmult_le_compat_r with (r := IZR d) in H; [|lra].
    rewrite Rmult_assoc, Rinv_l in H by lra. lra. }
  assert (Hhi : (8 * (IZR t * IZR d - 1000 * IZR n) <= 5 * IZR d)%R).
  { assert (H : (IZR t - 1000 * IZR n / IZR d <= 5 / 8)%R) by lra.
    rewrite Hq in H.
    apply Rmult_le_compat_r with (r := IZR d) in H; [|lra].
    rewrite Rmult_assoc, Rinv_l in H by lra. lra. }
  assert (Hlo' : - (5 * d) <= 8 * (t * d - 1000 * n)).
  { apply le_IZR.
    rewrite ?mult_IZR, ?opp_IZR, ?minus_IZR, ?mult_IZR. exact Hlo. }
  assert (Hhi' : 8 * (t * d - 1000 * n) <= 5 * d).
  { apply le_IZR.
    rewrite ?mult_IZR, ?opp_IZR, ?minus_IZR, ?mult_IZR. exact Hhi. }
  lia.
Qed.

(** Rounded shares of a common total, added up. *)
Lemma sum_tenths_shares (d : Z) (vs : list Z) :
  Forall (fun v => 0 < v <= d /\ 100 * v < 2 ^ 63) vs ->
  exists s,
    sum_tenths ((fun v => percentage_of v (Some d)) <$> vs) = Some s /\
    8 * Z.abs (s * d - 1000 * sumZ vs) <= 5 * (Z.of_nat (length vs) * d).
Proof.
  induction 1 as [|v vs [Hv Hb] _ (s & Hs & IH)].
  - exists 0. split; [reflexivity|]. simpl. lia.
  - destruct (percentage_of_near v d Hv Hb) as (t & Ht & Hnear).
    rewrite fmap_cons, Ht. cbn [sum_tenths]. rewrite Hs.
    exists (t + s). split; [reflexivity|].
    change (sumZ (v :: vs)) with (v + sumZ vs).
    rewrite length_cons, Nat2Z.inj_succ. lia.
Qed.

Lemma sumZ_filter_split {A} (P : A -> Prop) `{forall x, Decision (P x)}
    (f : A -> Z) (l : list A) :
  sumZ (f <$> l)
  = sumZ (f <$> filter P l) + sumZ (f <$> filter (fun x => ~ P x) l).
Proof.
  induction l as [|x l IH]; [reflexivity|].
  rewrite !filter_cons. csimpl.
  destruct (decide (P x)) as [Hx|Hx].
  - rewrite decide_False by tauto. csimpl. lia.
  - rewrite decide_True by tauto. csimpl. lia.
Qed.

Lemma sumZ_filter_le {A} (P : A -> Prop) `{forall x, Decision (P x)}
    (f : A -> Z) (l : list A) :
  Forall (fun x => 0 <= f x) l ->
  sumZ (f <$> filter P l) <= sumZ (f <$> l).
Proof.
  intros Hl. rewrite (sumZ_filter_split P f l).
  enough (0 <= sumZ (f <$> filter (fun x => ~ P x) l)) by lia.
  apply sumZ_nonneg, Forall_fmap, Forall_forall. intros x Hx.
  apply list_elem_of_filter in Hx as [_ Hx].
  rewrite Forall_forall in Hl. now apply Hl.
Qed.

Lemma sumZ_pos (l : list Z) :
  Forall (fun v => 0 < v) l -> l <> [] -> 0 < sumZ l.
Proof.
  intros Hl Hne. destruct Hl as [|v l Hv Hl]; [congruence|]. simpl.
  enough (0 <= sumZ l) by lia.
  apply sumZ_nonneg. eapply Forall_impl; [exact Hl|]. simpl. lia.
Qed.

Section partition.
Context {K : Type} `{EqDecision K}.

Lemma filter_other_key (kv : list (K * Z)) (k k' : K) :
  k' <> k ->
  filter (fun r => r.1 = k') (filter (fun r => ~ r.1 = k) kv)
  = filter (fun r => r.1 = k') kv.
Proof.
  intros Hne. rewrite list_filter_filter. apply list_filter_iff.
  intros r. split; [tauto|]. intros ->. tauto.
Qed.

(** Distinct keys select disjoint rows. *)
Lemma key_sums_le (kv : list (K * Z)) (ks : list K) :
  NoDup ks -> Forall (fun p => 0 <= p.2) kv ->
  sumZ (key_sum kv <$> ks) <= sumZ (kv.*2).
Proof.
  intros Hks. revert kv. induction Hks as [|k ks Hk Hks IH]; intros kv Hkv.
  - simpl. now apply sumZ_nonneg, Forall_fmap.
  - csimpl.
    assert (Hext : key_sum kv <$> ks
                   = key_sum (filter (fun r => ~ r.1 = k) kv) <$> ks).
    { apply Forall_fmap_ext, Forall_forall. intros k' Hk'.
      unfold key_sum. rewrite filter_other_key; [reflexivity|].
      intros ->. contradiction. }
    rewrite Hext.
    specialize (IH (filter (fun r => ~ r.1 = k) kv)).
    rewrite (sumZ_filter_split (fun r => r.1 = k) snd kv).
    unfold key_sum at 1.
    enough (sumZ (key_sum (filter (fun r => ~ r.1 = k) kv) <$> ks)
            <= sumZ ((filter (fun r => ~ r.1 = k) kv).*2)) by lia.
    apply IH. apply Forall_forall. intros p Hp.
    apply list_elem_of_filter in Hp as [_ Hp].
    rewrite Forall_forall in Hkv. now apply Hkv.
Qed.

Lemma key_sum_le (kv : list (K * Z)) (k : K) :
  Forall (fun p => 0 <= p.2) kv -> key_sum kv k <= sumZ (kv.*2).
Proof. intros Hkv. now apply (sumZ_filter_le _ snd). Qed.

Lemma key_sum_pos (kv : list (K * Z)) (k : K) :
  Forall (fun p => 0 < p.2) kv -> k ∈ kv.*1 -> 0 < key_sum kv k.
Proof.
  intros Hkv Hk. apply sumZ_pos.
  - apply Forall_fmap, Forall_forall. intros p Hp.
    apply list_elem_of_filter in Hp as [_ Hp].
    rewrite Forall_forall in Hkv. now apply Hkv.
  - apply list_elem_of_fmap in Hk as (p & -> & Hp).
    intros Hnil. apply fmap_nil_inv in Hnil.
    now apply (filter_nil_not_elem_of _ _ p Hnil).
Qed.

(** Below the overflow bound the [int64] group sums are the exact ones. *)
Lemma groupby_sum_exact (R : relation K) `{forall x y, Decision (R x y)}
    (kv : list (K * Z)) :
  Forall (fun p => 0 < p.2) kv -> sumZ (kv.*2) < 2 ^ 63 ->
  groupby_sum R kv = (fun k => (k, key_sum kv k)) <$> sorted_unique R (kv.*1).
Proof.
  intros Hkv Hb. unfold groupby_sum. apply list_fmap_ext. intros i k _.
  f_equal. unfold key_sum.
  assert (Hnn : Forall (fun p : K * Z => 0 <= p.2) kv)
    by (eapply Forall_impl; [exact Hkv|]; simpl; lia).
  pose proof (key_sum_le kv k Hnn) as Hle. unfold key_sum in Hle.
  apply sum64_exact; [|lia].
  apply Forall_fmap, Forall_forall. intros p Hp.
  apply list_elem_of_filter in Hp as [_ Hp].
  rewrite Forall_forall in Hnn. now apply Hnn.
Qed.
End partition.

(** ** The normalize step on a table of positive counts *)

Lemma classified_raw (t : list raw_row) (df : list grouped_row) :
  Forall2 classified t df -> raw <$> df = t.
Proof.
  induction 1 as [|r g t df (Hr & _) _ IH]; csimpl; [reflexivity|].
  now rewrite Hr, IH.
Qed.

Lemma classified_labels (t : list raw_row) (df : list grouped_row) :
  Forall2 classified t df ->
  Forall (fun g => location_group g ∈ location_labels) df.
Proof.
  induction 1 as [|r g t df (_ & _ & Hl) _ IH]; constructor; [|assumption].
  rewrite Hl. apply group_locations_label.
Qed.

Lemma elem_le_sumZ (l : list Z) (v : Z) :
  Forall (fun x => 0 <= x) l -> v ∈ l -> v <= sumZ l.
Proof.
  induction 1 as [|x l Hx Hl IH]; intros Hv.
  - now apply elem_of_nil in Hv.
  - pose proof (sumZ_nonneg l Hl). simpl.
    apply elem_of_cons in Hv as [->|Hv]; [lia|]. apply IH in Hv. lia.
Qed.

Section normalize_sums.
Variables (t : list raw_row) (df : list grouped_row).
Hypothesis Hc : classify t = Ok df.
Hypothesis Hpos : Forall (fun r => 0 < number_of_incidents r) t.
Hypothesis Hbound : 100 * total_incidents t < 2 ^ 63.

Local Abbreviation kv := (count_rows (select_groups df)).
Local Abbreviation keys := (sorted_unique key_le (kv.*1)).
Local Abbreviation gc := (grouped_counts (select_groups df)).

Lemma df_pos : Forall (fun g => 0 < number_of_incidents (raw g)) df.
Proof.
  pose proof (classified_raw _ _ (classify_Forall2 _ _ Hc)) as Hraw.
  apply (Forall_fmap raw (fun r => 0 < number_of_incidents r)).
  now rewrite Hraw.
Qed.

Lemma kv_pos : Forall (fun p : string * string * Z => 0 < p.2) kv.
Proof.
  apply Forall_fmap, Forall_forall. intros g Hg.
  apply list_elem_of_filter in Hg as [_ Hg].
  pose proof df_pos as Hdf. rewrite Forall_forall in Hdf. now apply Hdf.
Qed.

Lemma kv_nonneg : Forall (fun p : string * string * Z => 0 <= p.2) kv.
Proof. eapply Forall_impl; [apply kv_pos|]. simpl. lia. Qed.

Lemma kv_sum : sumZ (kv.*2) <= total_incidents t.
Proof.
  pose proof (classified_raw _ _ (classify_Forall2 _ _ Hc)) as Hraw.
  unfold total_incidents, count_rows, select_groups.
  rewrite <- Hraw, <- !list_fmap_compose.
  apply (sumZ_filter_le _ (fun g => number_of_incidents (raw g))).
  eapply Forall_impl; [apply df_pos|]. simpl. lia.
Qed.

Lemma kv_labels (k : string * string) :
  k ∈ kv.*1 -> k.2 ∈ location_labels.
Proof.
  intros Hk. apply list_elem_of_fmap in Hk as (p & -> & Hp).
  apply list_elem_of_fmap in Hp as (g & -> & Hg).
  apply list_elem_of_filter in Hg as [_ Hg]. simpl.
  apply classify_Forall2, classified_labels in Hc.
  rewrite Forall_forall in Hc. now apply Hc.
Qed.

Lemma gc_exact : gc = (fun k => (k, key_sum kv k)) <$> keys.
Proof.
  apply groupby_sum_exact; [apply kv_pos|]. pose proof kv_sum. lia.
Qed.

Lemma gc_values : gc.*2 = key_sum kv <$> keys.
Proof.
  rewrite gc_exact, <- list_fmap_compose. apply list_fmap_ext.
  intros i k _. reflexivity.
Qed.

Lemma gc_pos : Forall (fun e : string * string * Z => 0 < e.2) gc.
Proof.
  rewrite gc_exact. apply Forall_fmap, Forall_forall. intros k Hk. simpl.
  apply key_sum_pos; [apply kv_pos|].
  now apply elem_of_sorted_unique in Hk.
Qed.

Lemma gc_sum : sumZ (gc.*2) <= total_incidents t.
Proof.
  rewrite gc_values. etransitivity; [|apply kv_sum].
  apply key_sums_le; [apply NoDup_sorted_unique|apply kv_nonneg].
Qed.

Lemma total_rows_values : (total_rows gc).*2 = gc.*2.
Proof.
  unfold total_rows. rewrite <- list_fmap_compose. apply list_fmap_ext.
  intros i e _. reflexivity.
Qed.

Lemma total_rows_pos : Forall (fun p : string * Z => 0 < p.2) (total_rows gc).
Proof.
  apply Forall_fmap. eapply Forall_impl; [apply gc_pos|]. now simpl.
Qed.

(** The entries of one building group. *)
Local Abbreviation entries b :=
  (filter (fun e : string * string * Z => e.1.1 = b) gc).

Lemma total_of_group (b : string) :
  key_sum (total_rows gc) b = sumZ ((entries b).*2).
Proof.
  unfold key_sum, total_rows. rewrite filter_fmap, <- list_fmap_compose.
  reflexivity.
Qed.

Lemma group_totals_lookup (b : string) :
  b ∈ (total_rows gc).*1 ->
  (list_to_map (group_totals gc) : gmap string Z) !! b
  = Some (sumZ ((entries b).*2)).
Proof.
  intros Hb. apply elem_of_list_to_map_1; [apply NoDup_groupby_sum|].
  unfold group_totals. rewrite groupby_sum_exact.
  - rewrite <- total_of_group.
    apply (list_elem_of_fmap_2 (fun b => (b, key_sum (total_rows gc) b))).
    now apply elem_of_sorted_unique.
  - apply total_rows_pos.
  - rewrite total_rows_values. pose proof gc_sum. lia.
Qed.

Lemma entries_small (b : string) (e : string * string * Z) :
  e ∈ entries b -> 0 <= e.2 /\ 100 * e.2 < 2 ^ 63.
Proof.
  intros He. apply list_elem_of_filter in He as [_ He].
  pose proof gc_pos as Hp. rewrite Forall_forall in Hp.
  pose proof (Hp e He) as He0.
  assert (e.2 <= sumZ (gc.*2)).
  { apply elem_le_sumZ; [|now apply list_elem_of_fmap_2].
    apply Forall_fmap. eapply Forall_impl; [apply gc_pos|]. simpl. lia. }
  pose proof gc_sum. lia.
Qed.

Lemma entries_total_pos (b : string) :
  b ∈ (total_rows gc).*1 -> 0 < sumZ ((entries b).*2).
Proof.
  intros Hb. rewrite <- total_of_group.
  apply key_sum_pos; [apply total_rows_pos|assumption].
Qed.

Lemma entries_keys (b : string) :
  entries b
  = (fun k => (k, key_sum kv k))
      <$> filter (fun k : string * string => k.1 = b) keys.
Proof. rewrite gc_exact, filter_fmap. reflexivity. Qed.

(** A building group has at most the four location groups. *)
Lemma entries_length (b : string) : (length (entries b) <= 4)%nat.
Proof.
  rewrite entries_keys, length_fmap.
  rewrite <- (length_fmap snd).
  change 4%nat with (length location_labels).
  apply submseteq_length, NoDup_submseteq.
  - apply NoDup_fmap_2_strong;
      [|apply NoDup_filter, NoDup_sorted_unique].
    intros [b1 l1] [b2 l2] H1 H2 Hl. simpl in Hl. subst l2.
    apply list_elem_of_filter in H1 as [H1 _].
    apply list_elem_of_filter in H2 as [H2 _]. simpl in *. congruence.
  - intros l Hl. apply list_elem_of_fmap in Hl as (k & -> & Hk).
    apply list_elem_of_filter in Hk as [_ Hk].
    apply elem_of_sorted_unique in Hk. now apply kv_labels.
Qed.

Lemma entries_percentages (b : string) :
  b ∈ (total_rows gc).*1 ->
  group_percentages b (normalize gc)
  = (fun v => percentage_of v (Some (sumZ ((entries b).*2))))
      <$> (entries b).*2.
Proof.
  intros Hb. unfold group_percentages, normalize.
  rewrite filter_fmap, <- !list_fmap_compose.
  apply Forall_fmap_ext, Forall_forall. intros e He. simpl.
  apply list_elem_of_filter in He as [Heb _]. simpl in Heb.
  now rewrite Heb, (group_totals_lookup b Hb).
Qed.

(** Every count of a building group is a positive part of the group's
    total. *)
Lemma entries_shares (b : string) :
  Forall (fun v => 0 < v <= sumZ ((entries b).*2) /\ 100 * v < 2 ^ 63)
    ((entries b).*2).
Proof.
  assert (Hnn : Forall (fun x => 0 <= x) ((entries b).*2)).
  { apply Forall_fmap, Forall_forall. intros e He.
    now apply (entries_small b e). }
  apply Forall_forall. intros v Hv.
  pose proof (elem_le_sumZ _ v Hnn Hv) as Hle.
  apply list_elem_of_fmap in Hv as (e & -> & He).
  pose proof (entries_small b e He) as [_ He1].
  apply list_elem_of_filter in He as [_ He].
  pose proof gc_pos as Hp. rewrite Forall_forall in Hp.
  pose proof (Hp e He). lia.
Qed.

End normalize_sums.

(** C3 (as amended).  For every table of string dwelling types with positive
    incident counts whose hundredfold total fits [int64], the percentages
    of each building group, over all of its location groups and before the
    drop, add up to 100 within 0.2. *)
Theorem percentages_sum_to_100_within_two_tenths
    (t : list raw_row) (df : list grouped_row) :
  classify t = Ok df ->
  Forall (fun r => 0 < number_of_incidents r) t ->
  100 * total_incidents t < 2 ^ 63 ->
  sums_to_100_within 2 (normalize (grouped_counts (select_groups df))).
Proof.
  intros Hc Hpos Hbound b Hb.
  assert (Hb' : b ∈ (total_rows (grouped_counts (select_groups df))).*1).
  { unfold normalize in Hb. rewrite <- list_fmap_compose in Hb.
    unfold total_rows. rewrite <- list_fmap_compose. exact Hb. }
  rewrite (entries_percentages t df Hc Hpos Hbound b Hb').
  pose proof (entries_total_pos t df Hc Hpos Hbound b Hb') as HT.
  destruct (sum_tenths_shares _ _ (entries_shares t df Hc Hpos Hbound b))
    as (s & Hs & Hsum).
  exists s. split; [exact Hs|].
  pose proof (entries_length t df Hc Hpos Hbound b) as Hlen.
  rewrite length_fmap in Hsum. nia.
Qed.

Lemma percentages_sum_to_100_within_two_tenths_witness :
  exists df,
    classify tie_rows = Ok df /\
    sums_to_100_within 2 (normalize (grouped_counts (select_groups df))).
Proof.
  eexists. split; [vm_compute; reflexivity|].
  apply (percentages_sum_to_100_within_two_tenths tie_rows).
  - vm_compute. reflexivity.
  - repeat constructor.
  - vm_compute. reflexivity.
Defined.

(** C3, the claim as worded: with four location groups whose shares are
    all ties the rounded percentages are 25.0, 25.0, 25.0 and 25.2, which
    add up to 100.2. *)
Lemma tie_rows_sum_off_by_two_tenths :
  exists df,
    classify tie_rows = Ok df /\
    tie_rows <> [] /\
    Forall (fun r => building_group r ∈ ["House"; "Purpose Built Flats"])
      df /\
    group_percentages "House" (normalize (grouped_counts (select_groups df)))
      = [Tenths 250; Tenths 250; Tenths 250; Tenths 252] /\
    ~ sums_to_100_within 1 (normalize (grouped_counts (select_groups df))).
Proof.
  eexists. split; [vm_compute; reflexivity|].
  split; [discriminate|].
  split; [apply (bool_decide_unpack _); vm_compute; exact I|].
  split; [vm_compute; reflexivity|].
  intros H. destruct (H "House") as (s & Hs & Hlo & Hhi).
  - apply (bool_decide_unpack _). vm_compute. exact I.
  - vm_compute in Hs. injection Hs as <-. lia.
Qed.

(** ** The HAVING filter of [sql_human_cost] *)

Module SqlFacts.
Import Sql.

Lemma locations_where_holds (j : located) :
  holds (locations_where j) = true ->
  dd_dwelling_type j.1.2 <> None /\ dl_fire_start_location j.2 <> None.
Proof.
  destruct j as [[f d] dl]. unfold locations_where. simpl.
  destruct (dl_fire_start_location dl) as [l|], (dd_dwelling_type d) as [s|];
    unfold sql_neq, sql_eq; simpl; try case_bool_decide; simpl;
    try discriminate.
  intros _. split; discriminate.
Qed.

(** The IS NOT NULL filters of [sql_locations] leave only text cells, and
    COUNT over a group is at least 1. *)
Lemma sql_locations_rows (db : snapshot) :
  Forall (fun r => is_str (dwelling_type r) /\
                   is_str (fire_start_location r) /\
                   0 < number_of_incidents r)
    (sql_locations db).
Proof.
  unfold sql_locations.
  set (kept := filter (fun j => holds (locations_where j) = true)
                 (locations_from db)).
  apply Forall_fmap, Forall_forall. intros k Hk. simpl.
  rewrite elem_of_remove_dups in Hk.
  apply list_elem_of_fmap in Hk as (j & -> & Hj).
  assert (Hw : holds (locations_where j) = true)
    by (now apply list_elem_of_filter in Hj as [Hw _]).
  apply locations_where_holds in Hw as [Hd Hl]. unfold locations_key. simpl.
  destruct (dd_dwelling_type j.1.2) as [s|] eqn:Ed; [|congruence].
  destruct (dl_fire_start_location j.2) as [l|] eqn:El; [|congruence].
  simpl. split; [exact I|]. split; [exact I|].
  unfold sql_count.
  destruct (filter _ kept) as [|j' js] eqn:Hf.
  - exfalso. eapply (filter_nil_not_elem_of _ _ j Hf); [|exact Hj].
    unfold locations_key. now rewrite Ed, El.
  - rewrite fmap_cons, filter_cons, decide_True by eauto. simpl. lia.
Qed.

Lemma where_clause_holds (j : joined) :
  holds (where_clause j) = true <->
  exists cause, qualifies cause j.
Proof.
  destruct j as [[f di] ds]. unfold qualifies, where_clause. simpl.
  destruct (spread_rank ds) as [rk|], (rescues f) as [rs|],
    (cause_of_fire di) as [c|]; simpl;
    try (split; [discriminate|intros (c' & H1 & H2 & H3 & H4); congruence]).
  unfold sql_neq, sql_eq. simpl. case_bool_decide as Hc; simpl.
  - split; [discriminate|]. intros (c' & _ & _ & [= <-] & Hne). congruence.
  - split; [intros _|reflexivity]. exists c. repeat split; congruence.
Qed.

Lemma qualifies_iff (cause : string) (j : joined) :
  qualifies cause j <->
  cause_of j = Some cause /\ holds (where_clause j) = true.
Proof.
  rewrite where_clause_holds. split.
  - intros Hq. split; [apply Hq|eauto].
  - intros [Hc (c' & H1 & H2 & H3 & H4)]. unfold cause_of in Hc.
    assert (c' = cause) by congruence. subst c'. now repeat split.
Qed.

Lemma where_clause_cause (j : joined) :
  holds (where_clause j) = true -> cause_of j <> None.
Proof.
  intros H. apply where_clause_holds in H as (c & _ & _ & Hc & _).
  unfold cause_of. congruence.
Qed.

Lemma sql_count_non_null {A B} (f : A -> B) (l : list A) :
  sql_count ((fun x => Some (f x)) <$> l) = Z.of_nat (length l).
Proof.
  unfold sql_count. f_equal.
  induction l as [|x l IH]; [reflexivity|].
  rewrite fmap_cons, filter_cons, decide_True by eauto.
  simpl. now rewrite IH.
Qed.

(** The group of a cause holds exactly its qualifying incidents. *)
Lemma group_of_cause (db : snapshot) (cause : string) :
  filter (fun j => cause_of j = Some cause)
    (filter (fun j => holds (where_clause j) = true) (from_clause db))
  = filter (qualifies cause) (from_clause db).
Proof.
  rewrite list_filter_filter. apply list_filter_iff. intros j.
  now rewrite qualifies_iff.
Qed.

Lemma causes_sql_human_cost (db : snapshot) (c : option string) :
  c ∈ causes (sql_human_cost db) <->
  c ∈ cause_of <$> filter (fun j => holds (where_clause j) = true)
                     (from_clause db) /\
  100 < Z.of_nat (length
          (filter (fun j => cause_of j = c)
             (filter (fun j => holds (where_clause j) = true)
                (from_clause db)))).
Proof.
  unfold causes, sql_human_cost, group_by_cause.
  set (W := filter (fun j => holds (where_clause j) = true) (from_clause db)).
  rewrite <- list_fmap_compose, list_elem_of_fmap. split.
  - intros (g & -> & Hg). apply list_elem_of_filter in Hg as [Hh Hg].
    apply list_elem_of_fmap in Hg as (c & -> & Hc).
    rewrite elem_of_remove_dups in Hc. simpl. split; [assumption|].
    unfold having in Hh. apply bool_decide_eq_true in Hh. simpl in Hh.
    rewrite sql_count_non_null in Hh. lia.
  - intros [Hc Hn]. exists (c, filter (fun j => cause_of j = c) W).
    split; [reflexivity|]. apply list_elem_of_filter. split.
    + unfold having. apply bool_decide_eq_true. simpl.
      rewrite sql_count_non_null. lia.
    + apply list_elem_of_fmap. exists c. split; [reflexivity|].
      now apply elem_of_remove_dups.
Qed.

(** C8.  A cause has a row in the result of the human-cost query exactly
    when it has more than 100 qualifying incidents; so of two causes with
    101 and 99 qualifying incidents only the first has one.  There is one
    row per cause and none for a NULL cause. *)
Theorem having_more_than_100 (db : snapshot) :
  (forall cause,
     Some cause ∈ causes (sql_human_cost db) <->
     100 < qualifying_incidents db cause) /\
  (forall a b,
     qualifying_incidents db a = 101 -> qualifying_incidents db b = 99 ->
     Some a ∈ causes (sql_human_cost db) /\
     Some b ∉ causes (sql_human_cost db)) /\
  (None ∉ causes (sql_human_cost db)) /\
  NoDup (causes (sql_human_cost db)).
Proof.
  assert (Hiff : forall cause,
            Some cause ∈ causes (sql_human_cost db) <->
            100 < qualifying_incidents db cause).
  { intros cause. rewrite causes_sql_human_cost, group_of_cause.
    unfold qualifying_incidents. split; [tauto|]. intros Hn.
    split; [|assumption].
    destruct (filter (qualifies cause) (from_clause db)) as [|j js] eqn:Hf;
      [simpl in Hn; lia|].
    assert (Hj : j ∈ filter (qualifies cause) (from_clause db))
      by (rewrite Hf; left).
    apply list_elem_of_filter in Hj as [Hq Hj].
    apply qualifies_iff in Hq as [Hc Hw]. rewrite <- Hc.
    apply list_elem_of_fmap_2. now apply list_elem_of_filter. }
  split; [exact Hiff|]. split; [|split].
  - intros a b Ha Hb. rewrite !Hiff. lia.
  - rewrite causes_sql_human_cost. intros [Hin _].
    apply list_elem_of_fmap in Hin as (j & Hc & Hj).
    apply list_elem_of_filter in Hj as [Hw _].
    apply where_clause_cause in Hw. congruence.
  - unfold causes, sql_human_cost, group_by_cause.
    rewrite <- list_fmap_compose.
    apply NoDup_fmap_2_strong.
    + intros g1 g2 H1 H2 Hc. simpl in Hc.
      apply list_elem_of_filter in H1 as [_ H1].
      apply list_elem_of_filter in H2 as [_ H2].
      apply list_elem_of_fmap in H1 as (c1 & -> & _).
      apply list_elem_of_fmap in H2 as (c2 & -> & _).
      simpl in Hc. now subst.
    + apply NoDup_filter, NoDup_fmap_2, NoDup_remove_dups.
      intros c1 c2 [= ->]. reflexivity.
Qed.

Lemma having_more_than_100_witness :
  Some "Smoking materials" ∈ causes (sql_human_cost (synthetic 101 99)) /\
  Some "Candles" ∉ causes (sql_human_cost (synthetic 101 99)).
Proof.
  apply (proj1 (proj2 (having_more_than_100 (synthetic 101 99)))).
  - vm_compute. reflexivity.
  - vm_compute. reflexivity.
Defined.

Example synthetic_101_99 :
  sql_human_cost (synthetic 101 99)
  = [HumanCostRow (Some "Smoking materials") 101 (Some 0)].
Proof. vm_compute. reflexivity. Qed.

End SqlFacts.

(** ** Null cells *)

(** C10 (as amended).  On a null cell the building-group classification
    raises, where the location classification answers
    ['Other Room/External']; so the transform returns its two tables only
    on a table whose dwelling-type cells are all strings, a null location
    being no obstacle; and the IS NOT NULL filters of [sql_locations] leave
    only strings in both columns. *)
Theorem crash_free_only_if_dwelling_types_are_strings (t : list raw_row) :
  group_buildings PNone = Raise AttributeError /\
  group_locations PNone = "Other Room/External" /\
  (crash_free t -> Forall (fun r => is_str (dwelling_type r)) t) /\
  (forall db,
     Forall (fun r => is_str (dwelling_type r) /\
                      is_str (fire_start_location r))
       (Sql.sql_locations db)).
Proof.
  split; [reflexivity|]. split; [reflexivity|]. split.
  - rewrite <- classify_Ok. unfold crash_free, process_location_data.
    intros [out H]. destruct (classify t) as [df|e]; [eauto|discriminate].
  - intros db. eapply Forall_impl; [apply SqlFacts.sql_locations_rows|].
    simpl. tauto.
Qed.

Lemma crash_free_only_if_dwelling_types_are_strings_witness :
  let t := [RawRow (PStr "House - single occupancy") PNone 5;
            row "Purpose Built Flats" "Kitchen" 3] in
  crash_free t /\
  Forall (fun r => is_str (dwelling_type r)) t /\
  ~ crash_free [RawRow PNone (PStr "Kitchen") 5].
Proof.
  intros t.
  assert (Hcf : crash_free t) by (eexists; vm_compute; reflexivity).
  split; [exact Hcf|]. split.
  - exact (proj1 (proj2 (proj2
             (crash_free_only_if_dwelling_types_are_strings t))) Hcf).
  - intros H.
    apply (proj1 (proj2 (proj2
             (crash_free_only_if_dwelling_types_are_strings _)))) in H.
    inversion H as [|? ? Hs _]. exact Hs.
Defined.

(** C10, the claim as worded: a table with a null location and string
    dwelling types goes through the transform, the null location being
    classified ['Other Room/External']. *)
Lemma null_location_is_crash_free :
  let t := [RawRow (PStr "House - single occupancy") PNone 5] in
  group_locations PNone = "Other Room/External" /\
  crash_free t /\
  ~ Forall (fun r => is_str (dwelling_type r) /\
                     is_str (fire_start_location r)) t.
Proof.
  split; [reflexivity|]. split.
  - eexists. vm_compute. reflexivity.
  - intros H. inversion H as [|? ? [_ Hl] _]. exact Hl.
Qed.

(** ** [load_data] *)

Module GatewayFacts.
Import Gateway.

Section facts.
Context {Table : Type} (db : @store Table).

Lemma load_data_body_unfold (q : string) (w : world) :
  load_data_body db q w
  = match connect db with
    | Ok _ =>
        (run db q,
         World (cache w) (open_connections w) (S (connects w))
           (S (executions w)))
    | Raise e =>
        (Raise e,
         World (cache w) (open_connections w) (S (connects w)) (executions w))
    end.
Proof.
  unfold load_data_body, with_, duckdb_connect, execute_df, close.
  destruct (connect db); reflexivity.
Qed.

Lemma load_data_unfold (q : string) (w : world) :
  load_data db q w
  = match cache w !! q with
    | Some df => (Ok df, w)
    | None =>
        match connect db with
        | Ok _ =>
            match run db q with
            | Ok df =>
                (Ok df,
                 World (<[q := df]> (cache w)) (open_connections w)
                   (S (connects w)) (S (executions w)))
            | Raise e =>
                (Raise e,
                 World (cache w) (open_connections w) (S (connects w))
                   (S (executions w)))
            end
        | Raise e =>
            (Raise e,
             World (cache w) (open_connections w) (S (connects w))
               (executions w))
        end
    end.
Proof.
  unfold load_data, cache_data. rewrite load_data_body_unfold.
  destruct (cache w !! q); [reflexivity|].
  destruct (connect db); [|reflexivity].
  destruct (run db q); reflexivity.
Qed.

Lemma consistent_start : consistent db start.
Proof. intros q t Hq. simpl in Hq. now rewrite lookup_empty in Hq. Qed.

(** Calls keep the cache consistent with the store. *)
Lemma load_data_consistent (q : string) (w : world) :
  consistent db w -> consistent db (load_data db q w).2.
Proof.
  intros Hw. rewrite load_data_unfold.
  destruct (cache w !! q) as [df|] eqn:Hq; [exact Hw|].
  destruct (connect db) as [[]|e] eqn:Hcon; [|exact Hw].
  destruct (run db q) as [df|e] eqn:Hrun; [|exact Hw].
  intros q' t. simpl. destruct (decide (q = q')) as [<-|Hne].
  - rewrite lookup_insert_eq. intros [= <-]. now split.
  - rewrite lookup_insert_ne by assumption. apply Hw.
Qed.

(** C7.  When a call of [load_data] with [q] returns a table, a second call
    with [q] returns the same table from the cache and leaves the process
    as it was, so the store ran [q] at most once over the two calls. *)
Theorem load_data_twice (q : string) (w w1 : world) (t : Table) :
  load_data db q w = (Ok t, w1) ->
  load_data db q w1 = (Ok t, w1) /\
  cache w1 !! q = Some t /\
  (executions w1 <= S (executions w))%nat.
Proof.
  intros H1.
  assert (Hq : cache w1 !! q = Some t /\
               (executions w1 <= S (executions w))%nat).
  { rewrite load_data_unfold in H1.
    destruct (cache w !! q) as [df|] eqn:Hq.
    - injection H1 as -> ->. split; [assumption|lia].
    - destruct (connect db); [|discriminate].
      destruct (run db q); [|discriminate].
      injection H1 as -> <-. simpl. split; [apply lookup_insert_eq|lia]. }
  destruct Hq as [Hq He]. split; [|now split].
  rewrite load_data_unfold, Hq. reflexivity.
Qed.

(** C9.  Every call leaves as many connections open as it found, connects
    at most once and runs at most one query.  When the store cannot be
    opened, or cannot run [q], the call raises the store's error, with no
    second attempt and nothing cached. *)
Theorem load_data_failure_and_release (q : string) (w : world) :
  open_connections (load_data db q w).2 = open_connections w /\
  (connects (load_data db q w).2 <= S (connects w))%nat /\
  (executions (load_data db q w).2 <= S (executions w))%nat /\
  (consistent db w -> forall e, unavailable db q e ->
     (load_data db q w).1 = Raise e /\
     cache (load_data db q w).2 = cache w /\
     connects (load_data db q w).2 = S (connects w)).
Proof.
  rewrite load_data_unfold.
  destruct (cache w !! q) as [df|] eqn:Hq.
  - simpl. split; [reflexivity|]. split; [lia|]. split; [lia|].
    intros Hw e Hu. destruct (Hw q df Hq) as [Hcon Hrun].
    destruct Hu as [Hf|[_ Hf]]; congruence.
  - destruct (connect db) as [[]|e] eqn:Hcon.
    + destruct (run db q) as [df|e] eqn:Hrun; simpl;
        (split; [reflexivity|]); (split; [lia|]); (split; [lia|]);
        intros _ e' [Hf|[_ Hf]]; try congruence.
      rewrite Hrun in Hf. injection Hf as <-. now repeat split.
    + simpl. split; [reflexivity|]. split; [lia|]. split; [lia|].
      intros _ e' [Hf|[Hf _]]; [|congruence].
      rewrite Hcon in Hf. injection Hf as <-. now repeat split.
Qed.

End facts.

(** A store with one table, for trying the gateway out. *)
Lemma load_data_twice_witness :
  let db := Store (Ok ())
              (fun q => if decide (q = "SELECT 1") then Ok [1%Z]
                        else Raise (DuckDBError "Parser Error")) in
  let w1 := World {["SELECT 1" := [1%Z]]} 0 1 1 in
  load_data db "SELECT 1" w1 = (Ok [1%Z], w1) /\
  cache w1 !! "SELECT 1" = Some [1%Z] /\
  (executions w1 <= 1)%nat.
Proof.
  intros db w1. apply (load_data_twice db "SELECT 1" start w1 [1%Z]).
  vm_compute. reflexivity.
Defined.

Lemma load_data_failure_and_release_witness :
  let db := Store (Ok ())
              (fun q => if decide (q = "SELECT 1") then Ok [1%Z]
                        else Raise (DuckDBError "Parser Error")) in
  (load_data db "SELEC 1" start).1 = Raise (DuckDBError "Parser Error") /\
  cache (load_data db "SELEC 1" start).2 = cache start /\
  connects (load_data db "SELEC 1" start).2 = 1%nat.
Proof.
  intros db.
  apply (proj2 (proj2 (proj2
           (load_data_failure_and_release db "SELEC 1" start)))).
  - apply consistent_start.
  - right. split; reflexivity.
Defined.

End GatewayFacts.

(** ** The evaluated tables in binary64 *)

Module Binary64Facts.
Import Binary64.

(** On the tie rows the machine's floats give the four cells 25.0, 25.0,
    25.0 and 25.2, and their sum exceeds 100 by more than 0.1. *)
Example tie_rows_binary64 :
  percentage_of 499 2000 = of_tenths (round_half_even (1000 * 499) 2000) /\
  percentage_of 503 2000 = of_tenths (round_half_even (1000 * 503) 2000) /\
  of_tenths 250 = 25%float /\
  PrimFloat.ltb
    (of_tenths 1001)
    (percentage_of 499 2000 + percentage_of 499 2000
     + percentage_of 499 2000 + percentage_of 503 2000)%float = true.
Proof. vm_compute. repeat split. Qed.

(** The four percentages of the worked example. *)
Example example_rows_binary64 :
  percentage_of 100 150 = of_tenths 667 /\
  percentage_of 50 150 = of_tenths 333 /\
  percentage_of 30 50 = of_tenths 600 /\
  percentage_of 20 50 = of_tenths 400.
Proof. vm_compute. repeat split. Qed.

End Binary64Facts.

(** [percentage_of] and the machine's floats give the same cells, also where
    a count or a total is beyond 2^53 and where the exact quotient rounds
    the other way: 100 * 5000000000000 / 9999999999999999 is just above
    0.05, which exact rounding would take to 0.1; the total becomes 1e16 as
    a float and the cell is 0.0. *)
Example percentage_of_binary64 :
  forallb (fun p : Z * Z => same_as_binary64 p.1 p.2)
    [(499, 2000); (503, 2000); (100, 150); (50, 150); (30, 50); (20, 50);
     (1, 3); (2, 3); (1, 7); (1, 2000); (3, 2000); (1999, 2000);
     (12345, 450000); (1, 92233720368547758);
     (5000000000000, 9999999999999999);
     (9007199254740993, 18014398509481987);
     (30744573456182586, 92233720368547757);
     (92233720368547758, 92233720368547758)] = true /\
  percentage_of 5000000000000 (Some 9999999999999999) = Tenths 0 /\
  round_half_even (1000 * 5000000000000) 9999999999999999 = 1.
Proof. vm_compute. repeat split. Qed.

(** * Further properties *)

(** ** The order of labels *)

Lemma ascii_compare_Lt (a b : ascii) :
  Ascii.compare a b = Lt <-> (N_of_ascii a < N_of_ascii b)%N.
Proof. unfold Ascii.compare. apply N.compare_lt_iff. Qed.

Lemma ascii_compare_Eq (a b : ascii) : Ascii.compare a b = Eq <-> a = b.
Proof.
  split; [apply Ascii.compare_eq_iff|intros ->].
  unfold Ascii.compare. apply N.compare_refl.
Qed.

Lemma compare_refl (s : string) : String.compare s s = Eq.
Proof.
  induction s as [|c s IH]; simpl; [reflexivity|].
  now rewrite (proj2 (ascii_compare_Eq c c) eq_refl).
Qed.

Lemma compare_Eq (a b : string) : String.compare a b = Eq <-> a = b.
Proof. split; [apply String.compare_eq_iff|intros ->; apply compare_refl]. Qed.

Lemma compare_Lt_trans (a b c : string) :
  String.compare a b = Lt -> String.compare b c = Lt ->
  String.compare a c = Lt.
Proof.
  revert b c. induction a as [|x a IH]; intros [|y b] [|z c]; simpl;
    try congruence.
  destruct (Ascii.compare x y) eqn:Exy; try discriminate;
    destruct (Ascii.compare y z) eqn:Eyz; try discriminate; intros H1 H2.
  - apply (proj1 (ascii_compare_Eq _ _)) in Exy.
    apply (proj1 (ascii_compare_Eq _ _)) in Eyz. subst.
    rewrite (proj2 (ascii_compare_Eq z z) eq_refl). eauto.
  - apply (proj1 (ascii_compare_Eq _ _)) in Exy. subst. now rewrite Eyz.
  - apply (proj1 (ascii_compare_Eq _ _)) in Eyz. subst. now rewrite Exy.
  - apply (proj1 (ascii_compare_Lt _ _)) in Exy.
    apply (proj1 (ascii_compare_Lt _ _)) in Eyz.
    assert (Hxz : Ascii.compare x z = Lt)
      by (apply (proj2 (ascii_compare_Lt _ _)); lia).
    now rewrite Hxz.
Qed.

Lemma compare_Gt_Lt (a b : string) :
  String.compare a b = Gt <-> String.compare b a = Lt.
Proof.
  rewrite (String.compare_antisym b a).
  destruct (String.compare a b); simpl; split; congruence.
Qed.

Lemma str_le_compare (a b : string) :
  str_le a b <-> String.compare a b <> Gt.
Proof.
  unfold str_le, String.leb. destruct (String.compare a b); split; congruence.
Qed.

#[local] Instance str_le_total : Total str_le.
Proof. intros a b. apply String.leb_total. Qed.

#[local] Instance str_le_antisymm : AntiSymm (=) str_le.
Proof. intros a b. apply String.leb_antisym. Qed.

#[local] Instance str_le_trans : Transitive str_le.
Proof.
  intros a b c. rewrite !str_le_compare. intros Hab Hbc Hac.
  apply (proj1 (compare_Gt_Lt _ _)) in Hac.
  destruct (String.compare a b) eqn:Eab; [| |congruence].
  - apply (proj1 (compare_Eq _ _)) in Eab. subst.
    apply (proj2 (compare_Gt_Lt _ _)) in Hac. congruence.
  - pose proof (compare_Lt_trans _ _ _ Hac Eab) as Hcb.
    apply (proj2 (compare_Gt_Lt _ _)) in Hcb. congruence.
Qed.

#[local] Instance key_le_total : Total key_le.
Proof.
  intros [a1 a2] [b1 b2]. unfold key_le. simpl.
  rewrite (String.compare_antisym b1 a1).
  destruct (String.compare a1 b1); simpl; auto. apply str_le_total.
Qed.

#[local] Instance key_le_antisymm : AntiSymm (=) key_le.
Proof.
  intros [a1 a2] [b1 b2]. unfold key_le. simpl.
  rewrite (String.compare_antisym b1 a1).
  destruct (String.compare a1 b1) eqn:E; simpl; try tauto.
  apply (proj1 (compare_Eq _ _)) in E. subst. intros H1 H2. f_equal.
  now apply str_le_antisymm.
Qed.

#[local] Instance key_le_trans : Transitive key_le.
Proof.
  intros [a1 a2] [b1 b2] [c1 c2]. unfold key_le. simpl.
  destruct (String.compare a1 b1) eqn:Eab; try tauto;
    destruct (String.compare b1 c1) eqn:Ebc; try tauto.
  - apply (proj1 (compare_Eq _ _)) in Eab.
    apply (proj1 (compare_Eq _ _)) in Ebc. subst. rewrite compare_refl.
    apply str_le_trans.
  - apply (proj1 (compare_Eq _ _)) in Eab. subst. now rewrite Ebc.
  - apply (proj1 (compare_Eq _ _)) in Ebc. subst. now rewrite Eab.
  - now rewrite (compare_Lt_trans _ _ _ Eab Ebc).
Qed.

(** ** Sums in [int64] *)

Lemma wrap64_idemp_l (a b : Z) : wrap64 (wrap64 a + b) = wrap64 (a + b).
Proof.
  unfold wrap64. f_equal.
  replace ((a + 2 ^ 63) mod 2 ^ 64 - 2 ^ 63 + b + 2 ^ 63)
    with ((a + 2 ^ 63) mod 2 ^ 64 + b) by lia.
  rewrite Zplus_mod_idemp_l. f_equal. lia.
Qed.

Lemma wrap64_idemp_r (a b : Z) : wrap64 (a + wrap64 b) = wrap64 (a + b).
Proof. rewrite (Z.add_comm a), wrap64_idemp_l. f_equal. lia. Qed.

Lemma wrap64_wrap64 (a : Z) : wrap64 (wrap64 a) = wrap64 a.
Proof.
  replace (wrap64 a) with (wrap64 a + 0) at 1 by lia.
  rewrite wrap64_idemp_l. f_equal. lia.
Qed.

Lemma wrap64_0 : wrap64 0 = 0.
Proof. reflexivity. Qed.

(** An [int64] sum is the exact sum, wrapped once. *)
Lemma sum64_wrap (l : list Z) : sum64 l = wrap64 (sumZ l).
Proof.
  unfold sum64.
  enough (Hgen : forall acc,
            fold_left (fun a v => wrap64 (a + v)) l (wrap64 acc)
            = wrap64 (acc + sumZ l)).
  { rewrite <- wrap64_0 at 1. now rewrite Hgen. }
  induction l as [|v l IH]; intros acc; simpl.
  - f_equal. lia.
  - rewrite wrap64_idemp_l, IH. f_equal. lia.
Qed.

Lemma sum64_Permutation (l k : list Z) : l ≡ₚ k -> sum64 l = sum64 k.
Proof. intros H. now rewrite !sum64_wrap, (sumZ_Permutation l k H). Qed.

(** ** Row order *)

Section sorted_unique_order.
Context {K : Type} `{EqDecision K} (R : relation K)
        `{forall x y, Decision (R x y)}
        `{!Total R, !Transitive R, !AntiSymm (=) R}.

(** The sorted labels depend only on which labels occur. *)
Lemma sorted_unique_ext (l1 l2 : list K) :
  (forall x, x ∈ l1 <-> x ∈ l2) -> sorted_unique R l1 = sorted_unique R l2.
Proof.
  intros Hl. apply (Sorted_unique R).
  - apply Sorted_merge_sort; assumption.
  - apply Sorted_merge_sort; assumption.
  - apply NoDup_Permutation; [apply NoDup_sorted_unique..|].
    intros x. now rewrite !elem_of_sorted_unique.
Qed.

Lemma groupby_sum_Permutation (kv1 kv2 : list (K * Z)) :
  kv1 ≡ₚ kv2 -> groupby_sum R kv1 = groupby_sum R kv2.
Proof.
  intros Hkv. unfold groupby_sum.
  rewrite (sorted_unique_ext (kv1.*1) (kv2.*1))
    by (intros x; now rewrite Hkv).
  apply list_fmap_ext. intros i k _. f_equal.
  apply sum64_Permutation. now rewrite Hkv.
Qed.
End sorted_unique_order.

Lemma apply_group_buildings_Raise (l : list pyval) (e : exn) :
  apply group_buildings l = Raise e -> e = AttributeError.
Proof.
  induction l as [|v l IH]; simpl; [discriminate|].
  destruct v as [s|]; [|now intros [= <-]].
  destruct (group_buildings (PStr s)) as [g|e'] eqn:Hg.
  - simpl. destruct (apply group_buildings l) as [ys|e'']; simpl;
      [discriminate|]. intros [= <-]. now apply IH.
  - assert (Hs : is_str (PStr s)) by exact I.
    apply group_buildings_Ok in Hs as [g Hg']. congruence.
Qed.

Lemma classify_Raise (t : list raw_row) (e : exn) :
  classify t = Raise e -> e = AttributeError.
Proof.
  unfold classify. rewrite apply_pure.
  destruct (apply group_buildings (dwelling_type <$> t)) as [bgs|e'] eqn:Hb;
    simpl; [discriminate|].
  intros [= <-]. now apply apply_group_buildings_Raise in Hb.
Qed.

Lemma classify_rows (t : list raw_row) (df : list grouped_row) :
  classify t = Ok df -> df = classify_row <$> t.
Proof.
  intros Hc. apply classify_Forall2 in Hc.
  induction Hc as [|r g t df (Hr & Hb & Hl) _ IH]; csimpl; [reflexivity|].
  f_equal; [|exact IH].
  destruct g as [r' b l]. simpl in *. subst r' l.
  unfold classify_row. now rewrite Hb.
Qed.

Lemma classify_strings (t : list raw_row) :
  Forall (fun r => is_str (dwelling_type r)) t ->
  classify t = Ok (classify_row <$> t).
Proof.
  intros Hs. apply classify_Ok in Hs as [df Hdf].
  now rewrite Hdf, (classify_rows t df Hdf).
Qed.

Lemma classify_not_strings (t : list raw_row) :
  ~ Forall (fun r => is_str (dwelling_type r)) t ->
  classify t = Raise AttributeError.
Proof.
  intros Hs. destruct (classify t) as [df|e] eqn:Hc.
  - exfalso. apply Hs, classify_Ok. eauto.
  - now rewrite (classify_Raise t e Hc).
Qed.

(** X1.  The output of the transform does not depend on the order in
    which the query returned its rows; with a null dwelling type somewhere
    the same exception is raised in either order. *)
Theorem process_location_data_Permutation (t1 t2 : list raw_row) :
  t1 ≡ₚ t2 -> process_location_data t1 = process_location_data t2.
Proof.
  intros Ht.
  destruct (decide (Forall (fun r => is_str (dwelling_type r)) t1)) as [Hs|Hs].
  - assert (Hs2 : Forall (fun r => is_str (dwelling_type r)) t2)
      by (now rewrite <- Ht).
    rewrite (process_location_data_pivoted t1 _ (classify_strings t1 Hs)).
    rewrite (process_location_data_pivoted t2 _ (classify_strings t2 Hs2)).
    assert (Hgc : grouped_counts (select_groups (classify_row <$> t1))
                  = grouped_counts (select_groups (classify_row <$> t2))).
    { apply (groupby_sum_Permutation key_le). unfold count_rows, select_groups.
      now rewrite Ht. }
    now rewrite Hgc.
  - assert (Hs2 : ~ Forall (fun r => is_str (dwelling_type r)) t2)
      by (now rewrite <- Ht).
    unfold process_location_data.
    now rewrite (classify_not_strings t1 Hs), (classify_not_strings t2 Hs2).
Qed.

Lemma process_location_data_Permutation_witness :
  process_location_data
    [row "House - single occupancy" "Kitchen" 100;
     row "Purpose Built Flats" "Refuse Store" 20]
  = process_location_data
      [row "Purpose Built Flats" "Refuse Store" 20;
       row "House - single occupancy" "Kitchen" 100].
Proof. apply process_location_data_Permutation. apply perm_swap. Defined.

(** ** Rows outside the comparison *)

Lemma comparedb_compared (r : raw_row) : comparedb r = true <-> compared r.
Proof.
  unfold comparedb, compared. destruct (dwelling_type r) as [s|].
  - pose proof (group_buildings_spec s) as (H1 & H2 & H3). split.
    + intros Hb. exists s. split; [reflexivity|].
      destruct (decide (s = "House - single occupancy")) as [|Hne];
        [now left|].
      destruct (String.prefix "Purpose Built" s) eqn:Hp;
        [right; now apply prefix_starts_with|].
      assert (Hn : ~ starts_with "Purpose Built" s)
        by (rewrite <- prefix_starts_with; congruence).
      rewrite (H3 Hne Hn) in Hb. discriminate.
    + intros (s' & [= <-] & [Hs|Hs]).
      * now rewrite (H1 Hs).
      * now rewrite (H2 Hs).
  - split; [discriminate|]. intros (s & Hs & _). discriminate.
Qed.

Lemma classify_row_selected (r : raw_row) :
  building_group (classify_row r) ∈ ["House"; "Purpose Built Flats"]
  <-> comparedb r = true.
Proof.
  unfold classify_row, comparedb. simpl.
  destruct (group_buildings (dwelling_type r)) as [b|e].
  - now rewrite bool_decide_eq_true.
  - split; [|discriminate]. intros H.
    apply (bool_decide_pack _) in H. vm_compute in H. contradiction.
Qed.

(** X2.  Rows whose dwelling type is neither ['House - single occupancy']
    nor starts with ['Purpose Built'] have no influence on the output:
    leaving them out of a table of string dwelling types gives the same two
    tables. *)
Theorem other_dwelling_types_ignored (t : list raw_row) :
  (forall r, comparedb r = true <-> compared r) /\
  (Forall (fun r => is_str (dwelling_type r)) t ->
   process_location_data (filter (fun r => comparedb r = true) t)
   = process_location_data t).
Proof.
  split; [apply comparedb_compared|]. intros Hs.
  assert (Hs' : Forall (fun r => is_str (dwelling_type r))
                  (filter (fun r => comparedb r = true) t)).
  { apply Forall_forall. intros r Hr.
    apply list_elem_of_filter in Hr as [_ Hr].
    rewrite Forall_forall in Hs. now apply Hs. }
  rewrite (process_location_data_pivoted _ _ (classify_strings _ Hs')).
  rewrite (process_location_data_pivoted _ _ (classify_strings _ Hs)).
  assert (Hsel : select_groups
                   (classify_row <$> filter (fun r => comparedb r = true) t)
                 = select_groups (classify_row <$> t)).
  { unfold select_groups. rewrite !filter_fmap. f_equal.
    rewrite list_filter_filter. apply list_filter_iff. intros r.
    rewrite classify_row_selected. tauto. }
  now rewrite Hsel.
Qed.

Lemma other_dwelling_types_ignored_witness :
  process_location_data
    (filter (fun r => comparedb r = true)
       [row "House - single occupancy" "Kitchen" 100;
        row "Bungalow - single occupancy" "Kitchen" 7])
  = process_location_data
      [row "House - single occupancy" "Kitchen" 100;
       row "Bungalow - single occupancy" "Kitchen" 7].
Proof.
  apply (proj2 (other_dwelling_types_ignored _)). repeat constructor.
Defined.

(** ** Labels of the output *)

Lemma normalize_groups (gc : list (string * string * Z)) (rw : pct_row) :
  rw ∈ normalize gc ->
  (pr_building_group rw, pr_location_group rw) ∈ gc.*1.
Proof.
  unfold normalize. intros Hrw.
  apply list_elem_of_fmap in Hrw as (e & -> & He). simpl.
  apply list_elem_of_fmap. exists e. split; [now destruct e as [[? ?] ?]|done].
Qed.

Lemma grouped_counts_keys (df : list grouped_row) (k : string * string) :
  k ∈ (grouped_counts df).*1 <->
  exists g, g ∈ df /\ k = (building_group g, location_group g).
Proof.
  unfold grouped_counts. rewrite groupby_sum_keys, elem_of_sorted_unique.
  unfold count_rows. rewrite <- list_fmap_compose, list_elem_of_fmap.
  split; intros (g & Hk & Hg); exists g; now split.
Qed.

Lemma normalize_labels (t : list raw_row) (df : list grouped_row)
    (rw : pct_row) :
  classify t = Ok df ->
  rw ∈ normalize (grouped_counts (select_groups df)) ->
  pr_building_group rw ∈ ["House"; "Purpose Built Flats"] /\
  pr_location_group rw ∈ location_labels.
Proof.
  intros Hc Hrw. apply normalize_groups, grouped_counts_keys in Hrw
    as (g & Hg & [= -> ->]).
  apply list_elem_of_filter in Hg as [Hb Hg]. split; [exact Hb|].
  apply classify_Forall2, classified_labels in Hc.
  rewrite Forall_forall in Hc. now apply Hc.
Qed.

(** X3.  Whatever table goes in, the pivot table that comes out has at
    most the two columns ['House'] and ['Purpose Built Flats'] and at most
    the three index labels other than ['Other Room/External'], each once;
    every row has one cell per column; so the long table has at most six
    rows. *)
Theorem output_labels (t : list raw_row) (long : list chart_row)
    (pv : pivot_table) :
  process_location_data t = Ok (long, pv) ->
  columns pv ⊆ ["House"; "Purpose Built Flats"] /\
  index pv ⊆ ["Communal/Escape Routes"; "Kitchen"; "Living/Bedroom"] /\
  NoDup (columns pv) /\ NoDup (index pv) /\
  Forall (fun rw => length rw.2 = length (columns pv)) (rows pv) /\
  (length long <= 6)%nat.
Proof.
  intros Hp. destruct (classify t) as [df|e] eqn:Hc;
    [|unfold process_location_data in Hp; rewrite Hc in Hp; discriminate].
  rewrite (process_location_data_pivoted t df Hc) in Hp.
  injection Hp as <- <-.
  set (norm := normalize (grouped_counts (select_groups df))).
  assert (Hcols : columns (pivoted norm) ⊆ ["House"; "Purpose Built Flats"]).
  { intros b Hb. rewrite pivoted_columns, elem_of_sorted_unique in Hb.
    apply list_elem_of_fmap in Hb as (rw & -> & Hrw).
    now apply (normalize_labels t df rw Hc). }
  assert (Hidx : index (pivoted norm)
                 ⊆ ["Communal/Escape Routes"; "Kitchen"; "Living/Bedroom"]).
  { intros l Hl. rewrite pivoted_index in Hl.
    apply list_elem_of_filter in Hl as [Hne Hl].
    rewrite elem_of_sorted_unique in Hl.
    apply list_elem_of_fmap in Hl as (rw & -> & Hrw).
    apply (normalize_labels t df rw Hc) in Hrw as [_ Hrw].
    unfold location_labels in Hrw. rewrite !elem_of_cons in Hrw.
    rewrite !elem_of_cons. intuition. }
  assert (Hndc : NoDup (columns (pivoted norm)))
    by (rewrite pivoted_columns; apply NoDup_sorted_unique).
  assert (Hndi : NoDup (index (pivoted norm)))
    by (rewrite pivoted_index; apply NoDup_filter, NoDup_sorted_unique).
  repeat split; try assumption.
  - apply Forall_forall. intros rw Hrw. rewrite pivoted_columns.
    unfold pivoted, drop, fillna in Hrw. simpl in Hrw.
    apply list_elem_of_filter in Hrw as [_ Hrw].
    apply list_elem_of_fmap in Hrw as (rw' & -> & Hrw').
    apply list_elem_of_fmap in Hrw' as (l & -> & _). simpl.
    now rewrite !length_fmap.
  - rewrite length_melt.
    pose proof (submseteq_length _ _
                  (NoDup_submseteq _ _ Hndc Hcols)) as H2.
    pose proof (submseteq_length _ _
                  (NoDup_submseteq _ _ Hndi Hidx)) as H3.
    change (length (columns (pivoted norm)) <= 2)%nat in H2.
    change (length (index (pivoted norm)) <= 3)%nat in H3. nia.
Qed.

Lemma output_labels_witness :
  exists long pv,
    process_location_data example_rows = Ok (long, pv) /\
    (length long <= 6)%nat.
Proof.
  destruct (process_location_data example_rows) as [[long pv]|e] eqn:Hp;
    [|vm_compute in Hp; discriminate].
  exists long, pv. split; [reflexivity|].
  apply (output_labels example_rows long pv Hp).
Defined.

(** ** Totals *)

Lemma filter_none {A} (P : A -> Prop) `{forall x, Decision (P x)}
    (l : list A) :
  (forall x, x ∈ l -> ~ P x) -> filter P l = [].
Proof.
  induction l as [|x l IH]; intros Hl; [reflexivity|].
  rewrite filter_cons, decide_False by (apply Hl; left).
  apply IH. intros y Hy. apply Hl. now right.
Qed.

Lemma wrap64_sumZ_wrap {A} (f : A -> Z) (l : list A) :
  wrap64 (sumZ ((fun x => wrap64 (f x)) <$> l)) = wrap64 (sumZ (f <$> l)).
Proof.
  induction l as [|x l IH]; [reflexivity|]. csimpl.
  rewrite wrap64_idemp_l, <- wrap64_idemp_r, IH, wrap64_idemp_r.
  reflexivity.
Qed.

Section partition_eq.
Context {K : Type} `{EqDecision K}.

(** Keys that cover a selection of rows split its sum. *)
Lemma key_sums_partition (P : K -> Prop) `{forall k, Decision (P k)}
    (ks : list K) (kv : list (K * Z)) :
  NoDup ks ->
  (forall k, k ∈ ks -> P k) ->
  (forall r, r ∈ kv -> P r.1 -> r.1 ∈ ks) ->
  sumZ (key_sum kv <$> ks) = sumZ ((filter (fun r => P r.1) kv).*2).
Proof.
  intros Hks. revert kv.
  induction Hks as [|k ks Hk Hks IH]; intros kv HP Hcov.
  - rewrite filter_none; [reflexivity|].
    intros r Hr Hp. apply Hcov in Hp; [|assumption].
    now apply elem_of_nil in Hp.
  - csimpl.
    assert (Hext : key_sum kv <$> ks
                   = key_sum (filter (fun r => ~ r.1 = k) kv) <$> ks).
    { apply Forall_fmap_ext, Forall_forall. intros k' Hk'.
      unfold key_sum. rewrite filter_other_key; [reflexivity|].
      intros ->. contradiction. }
    rewrite Hext, (IH (filter (fun r => ~ r.1 = k) kv)).
    + rewrite (sumZ_filter_split (fun r => r.1 = k) snd
                 (filter (fun r => P r.1) kv)).
      unfold key_sum. f_equal; f_equal; f_equal.
      * rewrite list_filter_filter. apply list_filter_iff. intros r.
        split; [|tauto]. intros Hr. split; [exact Hr|].
        rewrite Hr. apply HP. left.
      * rewrite !list_filter_filter. apply list_filter_iff. intros r. tauto.
    + intros k' Hk'. apply HP. now right.
    + intros r Hr Hp. apply list_elem_of_filter in Hr as [Hne Hr].
      apply Hcov in Hp; [|assumption].
      apply elem_of_cons in Hp as [Heq|Hp]; [contradiction|assumption].
Qed.
End partition_eq.

(** X4.  The total of a building group is the [int64] sum of the incident
    counts of all the selected rows of that group, and only the groups
    that have a row have a total. *)
Theorem group_totals_conservation (df : list grouped_row) (b : string)
    (T : Z) :
  (b, T) ∈ group_totals (grouped_counts (select_groups df)) <->
  b ∈ building_group <$> select_groups df /\
  T = wrap64 (sumZ ((fun g => number_of_incidents (raw g))
                      <$> filter (fun g => building_group g = b)
                            (select_groups df))).
Proof.
  set (G := select_groups df).
  unfold group_totals. rewrite elem_of_groupby_sum.
  assert (Hkeys : b ∈ (total_rows (grouped_counts G)).*1 <->
                  b ∈ building_group <$> G).
  { unfold total_rows. rewrite <- list_fmap_compose.
    rewrite !list_elem_of_fmap. split.
    - intros (e & -> & He).
      apply (list_elem_of_fmap_2 fst) in He.
      apply grouped_counts_keys in He as (g & Hg & Hk).
      exists g. split; [|assumption]. simpl. now rewrite Hk.
    - intros (g & -> & Hg).
      assert (Hk : (building_group g, location_group g)
                   ∈ (grouped_counts G).*1)
        by (apply grouped_counts_keys; eauto).
      apply list_elem_of_fmap in Hk as (e & Hk & He).
      exists e. split; [|assumption]. simpl. now rewrite <- Hk. }
  rewrite Hkeys.
  assert (Hsum :
    sum64 ((filter (fun r : string * Z => r.1 = b)
              (total_rows (grouped_counts G))).*2)
    = wrap64 (sumZ ((fun g => number_of_incidents (raw g))
                      <$> filter (fun g => building_group g = b) G))).
  { rewrite sum64_wrap. unfold total_rows, grouped_counts, groupby_sum.
    rewrite !filter_fmap, <- !list_fmap_compose.
    set (ks := filter (fun k : string * string => k.1 = b)
                 (sorted_unique key_le ((count_rows G).*1))).
    transitivity
      (wrap64 (sumZ ((fun k => wrap64 (key_sum (count_rows G) k)) <$> ks))).
    { f_equal. f_equal. apply list_fmap_ext. intros i k _. simpl.
      apply sum64_wrap. }
    rewrite (wrap64_sumZ_wrap (key_sum (count_rows G))). f_equal.
    unfold ks.
    rewrite (key_sums_partition (fun k : string * string => k.1 = b)).
    - unfold count_rows. rewrite filter_fmap, <- list_fmap_compose.
      reflexivity.
    - apply NoDup_filter, NoDup_sorted_unique.
    - intros k Hk. now apply list_elem_of_filter in Hk as [Hk _].
    - intros r Hr Hb. apply list_elem_of_filter. split; [exact Hb|].
      apply elem_of_sorted_unique. now apply list_elem_of_fmap_2. }
  rewrite Hsum. reflexivity.
Qed.

Lemma group_totals_conservation_witness :
  ("House", 150) ∈
    group_totals
      (grouped_counts (select_groups (classify_row <$> example_rows))).
Proof.
  apply (proj2 (group_totals_conservation _ _ _)).
  split; [|vm_compute; reflexivity].
  apply (bool_decide_unpack _). vm_compute. exact I.
Defined.

(** ** Range of the percentages *)

Lemma percentage_of_share (v d : Z) :
  0 < v <= d -> 100 * v < 2 ^ 63 -> is_share (percentage_of v (Some d)).
Proof.
  intros Hv Hb. destruct (percentage_of_near v d Hv Hb) as (t & -> & Ht).
  simpl. nia.
Qed.

Lemma normalize_share (t : list raw_row) (df : list grouped_row)
    (rw : pct_row) :
  classify t = Ok df ->
  Forall (fun r => 0 < number_of_incidents r) t ->
  100 * total_incidents t < 2 ^ 63 ->
  rw ∈ normalize (grouped_counts (select_groups df)) ->
  is_share (percentage rw).
Proof.
  intros Hc Hpos Hbound Hrw.
  set (gc := grouped_counts (select_groups df)) in *.
  set (b := pr_building_group rw).
  assert (Hb : b ∈ (total_rows gc).*1).
  { unfold total_rows. rewrite <- list_fmap_compose.
    apply list_elem_of_fmap in Hrw as (e & -> & He).
    now apply (list_elem_of_fmap_2 (fun e : string * string * Z => e.1.1)). }
  assert (Hin : percentage rw ∈ group_percentages b (normalize gc)).
  { unfold group_percentages. apply list_elem_of_fmap_2.
    now apply list_elem_of_filter. }
  unfold gc in Hin.
  rewrite (entries_percentages t df Hc Hpos Hbound b Hb) in Hin. fold gc in Hin.
  apply list_elem_of_fmap in Hin as (v & -> & Hv).
  pose proof (entries_shares t df Hc Hpos Hbound b) as Hsh.
  rewrite Forall_forall in Hsh. destruct (Hsh v Hv) as [Hv1 Hv2].
  now apply percentage_of_share.
Qed.

(** X5.  On a table of positive counts whose hundredfold total fits
    [int64], every percentage of the long table is a finite number between
    0 and 100. *)
Theorem percentages_are_shares (t : list raw_row) (long : list chart_row)
    (pv : pivot_table) :
  process_location_data t = Ok (long, pv) ->
  Forall (fun r => 0 < number_of_incidents r) t ->
  100 * total_incidents t < 2 ^ 63 ->
  Forall (fun r => is_share (cr_percentage r)) long.
Proof.
  intros Hp Hpos Hbound. destruct (classify t) as [df|e] eqn:Hc;
    [|unfold process_location_data in Hp; rewrite Hc in Hp; discriminate].
  rewrite (process_location_data_pivoted t df Hc) in Hp.
  injection Hp as <- _.
  apply Forall_forall. intros r Hr. rewrite (pivoted_cell _ _ Hr).
  unfold find_cell.
  destruct (head (filter _ _)) as [rw|] eqn:Hh; simpl.
  - apply head_Some_elem_of, list_elem_of_filter in Hh as [_ Hrw].
    pose proof (normalize_share t df rw Hc Hpos Hbound Hrw) as Hs.
    destruct (percentage rw); simpl in *; try contradiction. exact Hs.
  - unfold fill. simpl. lia.
Qed.

Lemma percentages_are_shares_witness :
  exists long pv,
    process_location_data tie_rows = Ok (long, pv) /\
    Forall (fun r => is_share (cr_percentage r)) long.
Proof.
  destruct (process_location_data tie_rows) as [[long pv]|e] eqn:Hp;
    [|vm_compute in Hp; discriminate].
  exists long, pv. split; [reflexivity|].
  apply (percentages_are_shares tie_rows long pv Hp).
  - repeat constructor.
  - vm_compute. reflexivity.
Defined.

(** ** The query results *)

Module SqlMore.
Import Sql SqlFacts.

Lemma sumZ_ones {A} (l : list A) :
  sumZ ((fun _ => 1) <$> l) = Z.of_nat (length l).
Proof. induction l as [|x l IH]; csimpl; lia. Qed.

Lemma locations_where_text (j : located) :
  holds (locations_where j) = true ->
  exists d l, dd_dwelling_type j.1.2 = Some d /\
              dl_fire_start_location j.2 = Some l /\
              l <> "Not known".
Proof.
  destruct j as [[f d] dl]. unfold locations_where. simpl.
  destruct (dl_fire_start_location dl) as [l|], (dd_dwelling_type d) as [s|];
    unfold sql_neq, sql_eq; simpl; try case_bool_decide; simpl;
    try discriminate.
  intros _. exists s, l. repeat split. congruence.
Qed.

#[local] Instance to_py_inj : Inj (=) (=) to_py.
Proof. intros [a|] [b|]; simpl; congruence. Qed.

(** X6.  The table of [sql_locations] has one row for each pair of
    dwelling type and location; both are strings, the location is never
    ['Not known'], the count is at least 1, and the counts add up to the
    number of joined rows that pass the WHERE clause. *)
Theorem sql_locations_table (db : snapshot) :
  NoDup ((fun r => (dwelling_type r, fire_start_location r))
           <$> sql_locations db) /\
  Forall (fun r => exists d l,
            dwelling_type r = PStr d /\ fire_start_location r = PStr l /\
            l <> "Not known" /\ 1 <= number_of_incidents r)
    (sql_locations db) /\
  total_incidents (sql_locations db)
  = Z.of_nat (length (filter (fun j => holds (locations_where j) = true)
                        (locations_from db))).
Proof.
  unfold sql_locations.
  set (kept := filter (fun j => holds (locations_where j) = true)
                 (locations_from db)).
  split; [|split].
  - rewrite <- list_fmap_compose.
    apply NoDup_fmap_2_strong; [|apply NoDup_remove_dups].
    intros [a1 a2] [b1 b2] _ _ [= H1 H2].
    apply (inj to_py) in H1. apply (inj to_py) in H2. now subst.
  - pose proof (sql_locations_rows db) as Hrows.
    unfold sql_locations in Hrows. fold kept in Hrows.
    rewrite Forall_fmap, Forall_forall in Hrows.
    apply Forall_fmap, Forall_forall. intros k Hk.
    destruct (Hrows k Hk) as (_ & _ & Hn). simpl in Hn |- *.
    rewrite elem_of_remove_dups in Hk.
    apply list_elem_of_fmap in Hk as (j & -> & Hj).
    apply list_elem_of_filter in Hj as [Hw _].
    apply locations_where_text in Hw as (d & l & Hd & Hl & Hne).
    exists d, l. unfold locations_key. simpl. rewrite Hd, Hl. simpl.
    repeat split; [assumption|]. unfold locations_key in Hn. simpl in Hn.
    rewrite Hd, Hl in Hn. lia.
  - unfold total_incidents. rewrite <- list_fmap_compose.
    set (kv := (fun j => (locations_key j, 1)) <$> kept).
    assert (Hcount : forall k,
              sql_count ((fun j : located => Some (fact_dwelling_fire_id j.1.1))
                           <$> filter (fun j => locations_key j = k) kept)
              = key_sum kv k).
    { intros k. rewrite sql_count_non_null. unfold key_sum, kv.
      rewrite filter_fmap, <- list_fmap_compose. simpl.
      symmetry. apply sumZ_ones. }
    rewrite (list_fmap_ext _ (key_sum kv) _ (fun i k _ => Hcount k)).
    rewrite (key_sums_partition (fun _ => True)).
    + rewrite filter_all by (apply Forall_forall; intros; exact I).
      unfold kv. rewrite <- list_fmap_compose. apply sumZ_ones.
    + apply NoDup_remove_dups.
    + intros; exact I.
    + intros r Hr _. apply elem_of_remove_dups.
      apply list_elem_of_fmap in Hr as (j & -> & Hj). simpl.
      now apply list_elem_of_fmap_2.
Qed.


Lemma human_cost_row_inv (db : snapshot) (r : human_cost_row) :
  r ∈ sql_human_cost db ->
  exists c,
    r = select (c, filter (fun j => cause_of j = c)
                     (filter (fun j => holds (Sql.where_clause j) = true)
                        (from_clause db))) /\
    c ∈ causes (sql_human_cost db).
Proof.
  intros Hr. unfold sql_human_cost, group_by_cause in Hr.
  apply list_elem_of_fmap in Hr as (g & -> & Hg).
  pose proof Hg as Hg'.
  apply list_elem_of_filter in Hg as [_ Hg].
  apply list_elem_of_fmap in Hg as (c & -> & _).
  exists c. split; [reflexivity|].
  unfold causes, sql_human_cost, group_by_cause.
  rewrite <- list_fmap_compose.
  apply list_elem_of_fmap. eexists. split; [|exact Hg']. reflexivity.
Qed.

(** X7.  Every row of [sql_human_cost] is for a known cause other than
    ['Not known'], and its incident count is the number of qualifying
    incidents of that cause, which is more than 100. *)
Theorem human_cost_rows (db : snapshot) :
  Forall (fun r => exists c,
            hc_cause_of_fire r = Some c /\ c <> "Not known" /\
            hc_number_of_incidents r = qualifying_incidents db c /\
            100 < hc_number_of_incidents r)
    (sql_human_cost db).
Proof.
  apply Forall_forall. intros r Hr.
  apply human_cost_row_inv in Hr as (c & -> & Hc).
  destruct c as [c|].
  - exists c. simpl. rewrite sql_count_non_null, group_of_cause.
    fold (qualifying_incidents db c).
    apply causes_sql_human_cost in Hc as [Hin Hn].
    rewrite group_of_cause in Hn. fold (qualifying_incidents db c) in Hn.
    split; [reflexivity|]. split; [|split; [reflexivity|lia]].
    apply list_elem_of_fmap in Hin as (j & Hj & Hin).
    apply list_elem_of_filter in Hin as [Hw _].
    apply where_clause_holds in Hw as (c' & _ & _ & Hc' & Hne).
    unfold cause_of in Hj. congruence.
  - exfalso. apply causes_sql_human_cost in Hc as [Hin _].
    apply list_elem_of_fmap in Hin as (j & Hj & Hin).
    apply list_elem_of_filter in Hin as [Hw _].
    apply where_clause_cause in Hw. congruence.
Qed.




End SqlMore.

(** ** The displayed query and the executed one *)

Module SqlDisplayFacts.
Import Sql SqlFacts SqlDisplay.

Lemma display_where_holds (j : joined) :
  holds (SqlDisplay.where_clause j) = true <->
  spread_rank j.2 <> None /\ rescues j.1.1 <> None /\
  cause_of_fire j.1.2 <> None.
Proof.
  destruct j as [[f di] ds]. unfold SqlDisplay.where_clause. simpl.
  destruct (spread_rank ds), (rescues f), (cause_of_fire di); simpl;
    split; try discriminate; try tauto;
    try (intros _; repeat split; discriminate).
Qed.

Lemma where_clauses (j : joined) :
  holds (Sql.where_clause j) = true <->
  holds (SqlDisplay.where_clause j) = true /\
  cause_of j <> Some "Not known".
Proof.
  rewrite where_clause_holds, display_where_holds. unfold qualifies, cause_of.
  split.
  - intros (c & H1 & H2 & H3 & H4). rewrite H3.
    repeat split; try assumption; congruence.
  - intros ((H1 & H2 & H3) & H4).
    destruct (cause_of_fire j.1.2) as [c|]; [|congruence].
    exists c. repeat split; try assumption. congruence.
Qed.

Lemma having_groups (W : list joined) (g : option string * list joined) :
  g ∈ filter (fun g => having g = true) (group_by_cause W) <->
  exists c, g = (c, filter (fun j => cause_of j = c) W) /\
            100 < Z.of_nat (length (filter (fun j => cause_of j = c) W)).
Proof.
  rewrite list_elem_of_filter. unfold group_by_cause, having.
  rewrite list_elem_of_fmap, bool_decide_eq_true. split.
  - intros (Hh & c & -> & _). simpl in Hh.
    rewrite sql_count_non_null in Hh. exists c. split; [reflexivity|lia].
  - intros (c & -> & Hn). simpl. rewrite sql_count_non_null.
    split; [lia|]. exists c. split; [reflexivity|].
    apply elem_of_remove_dups.
    destruct (filter (fun j => cause_of j = c) W) as [|j js] eqn:Hf;
      [simpl in Hn; lia|].
    assert (Hj : j ∈ filter (fun j => cause_of j = c) W)
      by (rewrite Hf; left).
    apply list_elem_of_filter in Hj as [<- Hj].
    now apply list_elem_of_fmap_2.
Qed.

Lemma known_cause_group (db : snapshot) (c : option string) :
  c <> Some "Not known" ->
  filter (fun j => cause_of j = c)
    (filter (fun j => holds (Sql.where_clause j) = true) (from_clause db))
  = filter (fun j => cause_of j = c)
      (filter (fun j => holds (SqlDisplay.where_clause j) = true)
         (from_clause db)).
Proof.
  intros Hc. rewrite !list_filter_filter. apply list_filter_iff. intros j.
  rewrite where_clauses. split; [tauto|]. intros [Hj Hw].
  repeat split; try assumption. congruence.
Qed.

Lemma not_known_group (db : snapshot) :
  filter (fun j => cause_of j = Some "Not known")
    (filter (fun j => holds (SqlDisplay.where_clause j) = true)
       (from_clause db))
  = filter not_known (from_clause db).
Proof.
  rewrite list_filter_filter. apply list_filter_iff. intros j.
  rewrite display_where_holds. unfold not_known, cause_of. split.
  - intros (Hc & H1 & H2 & _). now repeat split.
  - intros (H1 & H2 & H3). repeat split; try assumption. congruence.
Qed.

(** X9.  The query displayed on the methodology page is not the one the
    dashboard runs: it shows every row of [sql_human_cost] with the same
    count and no other row of a cause other than ['Not known'], and it
    shows a ['Not known'] row exactly when more than 100 incidents of
    unknown cause have a spread rank and a rescue count. *)
Theorem displayed_query_adds_not_known (db : snapshot) :
  (forall r, r ∈ sql_human_cost db -> shown r ∈ sql_to_display db) /\
  (forall d, d ∈ sql_to_display db ->
     dr_cause_of_fire d <> Some "Not known" ->
     exists r, r ∈ sql_human_cost db /\ d = shown r) /\
  ((exists d, d ∈ sql_to_display db /\
              dr_cause_of_fire d = Some "Not known") <->
   100 < Z.of_nat (length (filter not_known (from_clause db)))).
Proof.
  unfold sql_human_cost, sql_to_display.
  set (W := filter (fun j => holds (Sql.where_clause j) = true)
              (from_clause db)).
  set (W' := filter (fun j => holds (SqlDisplay.where_clause j) = true)
               (from_clause db)).
  split; [|split].
  - intros r Hr. apply list_elem_of_fmap in Hr as (g & -> & Hg).
    apply having_groups in Hg as (c & -> & Hn).
    assert (Hc : c <> Some "Not known").
    { destruct (filter (fun j => cause_of j = c) W) as [|j js] eqn:Hf;
        [simpl in Hn; lia|].
      assert (Hj : j ∈ filter (fun j => cause_of j = c) W)
        by (rewrite Hf; left).
      apply list_elem_of_filter in Hj as [<- Hj].
      apply list_elem_of_filter in Hj as [Hw _].
      now apply where_clauses in Hw. }
    apply list_elem_of_fmap.
    exists (c, filter (fun j => cause_of j = c) W'). split.
    + unfold shown, Sql.select, SqlDisplay.select. simpl.
      rewrite sql_count_non_null. unfold W, W'.
      now rewrite (known_cause_group db c Hc).
    + apply having_groups. exists c. split; [reflexivity|].
      unfold W'. rewrite <- (known_cause_group db c Hc). exact Hn.
  - intros d Hd Hc. apply list_elem_of_fmap in Hd as (g & -> & Hg).
    apply having_groups in Hg as (c & -> & Hn). simpl in Hc.
    exists (Sql.select (c, filter (fun j => cause_of j = c) W)). split.
    + apply list_elem_of_fmap_2, having_groups. exists c.
      split; [reflexivity|]. unfold W. rewrite (known_cause_group db c Hc).
      exact Hn.
    + unfold shown, Sql.select, SqlDisplay.select. simpl.
      rewrite sql_count_non_null. unfold W, W'.
      now rewrite (known_cause_group db c Hc).
  - rewrite <- not_known_group. fold W'. split.
    + intros (d & Hd & Hc). apply list_elem_of_fmap in Hd as (g & -> & Hg).
      apply having_groups in Hg as (c & -> & Hn). simpl in Hc. now subst c.
    + intros Hn.
      exists (SqlDisplay.select
                (Some "Not known",
                 filter (fun j => cause_of j = Some "Not known") W')).
      split; [|reflexivity].
      apply list_elem_of_fmap_2, having_groups. eauto.
Qed.

Lemma displayed_query_adds_not_known_witness :
  sql_human_cost (unknown_causes 101) = [] /\
  exists d, d ∈ sql_to_display (unknown_causes 101) /\
            dr_cause_of_fire d = Some "Not known".
Proof.
  split; [vm_compute; reflexivity|].
  apply (proj2 (proj2 (proj2 (displayed_query_adds_not_known _)))).
  vm_compute. reflexivity.
Defined.

End SqlDisplayFacts.

(** ** The cache over several calls *)

Module PageFacts.
Import Gateway GatewayFacts Page.

Section calls_facts.
Context {Table : Type} (db : @store Table).

(** X10.  A cached table stays: no later call of [load_data], with the
    same or another query, changes or removes it, and the next call with
    its query returns it. *)
Theorem cached_tables_stay (q q' : string) (w : world) (t : Table) :
  cache w !! q' = Some t ->
  cache (load_data db q w).2 !! q' = Some t /\
  (load_data db q' (load_data db q w).2).1 = Ok t.
Proof.
  intros Hq'.
  assert (Hkept : cache (load_data db q w).2 !! q' = Some t).
  { rewrite load_data_unfold.
    destruct (cache w !! q) as [df|] eqn:Hq; [exact Hq'|].
    destruct (connect db) as [[]|e]; [|exact Hq'].
    destruct (run db q) as [df|e]; [|exact Hq']. simpl.
    rewrite lookup_insert_ne; [exact Hq'|]. intros ->. congruence. }
  split; [exact Hkept|].
  rewrite (load_data_unfold db q'), Hkept. reflexivity.
Qed.

(** X11.  A failure is not cached: when the store opens but cannot run
    [q], every call with [q] goes to the store again and raises its
    error, and the cache stays as it was. *)
Theorem failures_are_not_cached (q : string) (e : exn) (w : world) :
  consistent db w -> connect db = Ok () -> run db q = Raise e ->
  (load_data db q w).1 = Raise e /\
  (load_data db q (load_data db q w).2).1 = Raise e /\
  executions (load_data db q (load_data db q w).2).2 = S (S (executions w)) /\
  cache (load_data db q (load_data db q w).2).2 = cache w.
Proof.
  intros Hw Hcon Hrun.
  assert (Hq : cache w !! q = None).
  { destruct (cache w !! q) as [t|] eqn:Hq; [|reflexivity].
    destruct (Hw q t Hq) as [_ Hok]. congruence. }
  assert (H1 : load_data db q w
               = (Raise e, World (cache w) (open_connections w)
                             (S (connects w)) (S (executions w))))
    by (now rewrite load_data_unfold, Hq, Hcon, Hrun).
  rewrite H1. simpl.
  rewrite load_data_unfold. simpl. rewrite Hq, Hcon, Hrun. simpl.
  now repeat split.
Qed.

Lemma load_all_tidy (qs : list string) (w : world) :
  available db qs -> tidy db w ->
  (load_all db qs w).1 = run db <$> qs /\
  tidy db (load_all db qs w).2 /\
  dom (cache (load_all db qs w).2)
  = dom (cache w) ∪ (list_to_set qs : gset string).
Proof.
  intros [Hcon Hrun]. revert w.
  induction qs as [|q qs IH]; intros w Hw.
  - simpl. split; [reflexivity|]. split; [exact Hw|]. set_solver.
  - simpl. destruct (Hrun q) as [t Ht]; [left|].
    assert (IH' : forall w1, tidy db w1 ->
              (load_all db qs w1).1 = run db <$> qs /\
              tidy db (load_all db qs w1).2 /\
              dom (cache (load_all db qs w1).2)
              = dom (cache w1) ∪ (list_to_set qs : gset string)).
    { apply IH. intros q' Hq'. apply Hrun. now right. }
    clear IH. rewrite load_data_unfold.
    destruct Hw as (Hcons & Hex & Hcn & Hop).
    destruct (cache w !! q) as [df|] eqn:Hq.
    + destruct (Hcons q df Hq) as [_ Hdf].
      destruct (IH' w) as (Hr & Ht' & Hd); [unfold tidy; tauto|].
      destruct (load_all db qs w) as [rs w2]. simpl in *.
      split; [now rewrite Hr, Hdf|]. split; [exact Ht'|].
      rewrite Hd. assert (q ∈ dom (cache w)) by (apply elem_of_dom; eauto).
      set_solver.
    + rewrite Hcon, Ht.
      set (w1 := World (<[q:=t]> (cache w)) (open_connections w)
                   (S (connects w)) (S (executions w))).
      destruct (IH' w1) as (Hr & Ht' & Hd).
      { unfold tidy, w1. simpl. split; [|split; [|split]].
        - intros q' t'. simpl. destruct (decide (q = q')) as [<-|Hne].
          + rewrite lookup_insert_eq. intros [= <-]. now split.
          + rewrite lookup_insert_ne by assumption. apply Hcons.
        - rewrite map_size_insert_None by assumption. now rewrite Hex.
        - rewrite map_size_insert_None by assumption. now rewrite Hcn.
        - exact Hop. }
      destruct (load_all db qs w1) as [rs w2]. simpl in *.
      split; [now rewrite Hr|]. split; [exact Ht'|].
      rewrite Hd. unfold w1. simpl. rewrite dom_insert_L. set_solver.
Qed.

(** X12.  In a fresh process whose store opens and runs every query of a
    sequence of calls, each call returns what the store gives for its
    query, the store is opened and run once for each distinct query text,
    and no connection is left open. *)
Theorem one_execution_per_query (qs : list string) :
  available db qs ->
  (load_all db qs start).1 = run db <$> qs /\
  executions (load_all db qs start).2 = length (remove_dups qs) /\
  connects (load_all db qs start).2 = length (remove_dups qs) /\
  open_connections (load_all db qs start).2 = 0%nat.
Proof.
  intros Hav.
  destruct (load_all_tidy qs start Hav) as (Hr & (_ & Hex & Hcn & Hop) & Hd).
  { unfold tidy. split; [apply consistent_start|]. now repeat split. }
  assert (Hsize : size (cache (load_all db qs start).2)
                  = length (remove_dups qs)).
  { transitivity (size (dom (cache (load_all db qs start).2)));
      [symmetry; apply (size_dom (D:=gset string))|].
    rewrite Hd. simpl. rewrite dom_empty_L, (left_id_L ∅ (∪)).
    rewrite <- (size_list_to_set (C:=gset string) (remove_dups qs))
      by apply NoDup_remove_dups.
    f_equal. apply set_eq. intros q.
    now rewrite !elem_of_list_to_set, elem_of_remove_dups. }
  rewrite Hex, Hcn, Hsize. now repeat split.
Qed.

End calls_facts.

Lemma cached_tables_stay_witness :
  let db := Store (Ok ())
              (fun q => if decide (q = "SELECT 1") then Ok [1%Z]
                        else Raise (DuckDBError "Parser Error")) in
  let w := World {["SELECT 1" := [1%Z]]} 0 1 1 in
  cache (load_data db "SELEC 1" w).2 !! "SELECT 1" = Some [1%Z] /\
  (load_data db "SELECT 1" (load_data db "SELEC 1" w).2).1 = Ok [1%Z].
Proof.
  intros db w. apply (cached_tables_stay db). vm_compute. reflexivity.
Defined.

Lemma failures_are_not_cached_witness :
  let db := Store (Ok ())
              (fun q => if decide (q = "SELECT 1") then Ok [1%Z]
                        else Raise (DuckDBError "Parser Error")) in
  (load_data db "SELEC 1" start).1 = Raise (DuckDBError "Parser Error") /\
  (load_data db "SELEC 1" (load_data db "SELEC 1" start).2).1
  = Raise (DuckDBError "Parser Error") /\
  executions (load_data db "SELEC 1" (load_data db "SELEC 1" start).2).2
  = 2%nat /\
  cache (load_data db "SELEC 1" (load_data db "SELEC 1" start).2).2
  = cache start.
Proof.
  intros db. apply (failures_are_not_cached db).
  - apply consistent_start.
  - reflexivity.
  - reflexivity.
Defined.

Lemma one_execution_per_query_witness :
  let db := Store (Ok ()) (fun q => Ok [q]) in
  let qs := ["a"; "b"; "a"] in
  (load_all db qs start).1 = run db <$> qs /\
  executions (load_all db qs start).2 = 2%nat /\
  connects (load_all db qs start).2 = 2%nat /\
  open_connections (load_all db qs start).2 = 0%nat.
Proof.
  intros db qs. apply (one_execution_per_query db qs).
  split; [reflexivity|]. intros q _. eexists. reflexivity.
Defined.

End PageFacts.

(** ** The cached transform *)

Module SessionFacts.
Import Gateway GatewayFacts.

Section session_facts.
Variable db : @store (list raw_row).
Variable sql_locations : string.

Lemma body_on_available (w : world) (df : list raw_row) :
  consistent db w -> connect db = Ok () -> run db sql_locations = Ok df ->
  (Page.process_location_data_body db sql_locations w).1
  = process_location_data df /\
  cache (Page.process_location_data_body db sql_locations w).2
    !! sql_locations = Some df /\
  consistent db (Page.process_location_data_body db sql_locations w).2 /\
  (executions (Page.process_location_data_body db sql_locations w).2
   <= S (executions w))%nat.
Proof.
  intros Hw Hcon Hrun. unfold Page.process_location_data_body.
  pose proof (load_data_consistent db sql_locations w Hw) as Hw1.
  rewrite load_data_unfold in Hw1 |- *.
  destruct (cache w !! sql_locations) as [t|] eqn:Hq.
  - destruct (Hw _ _ Hq) as [_ Ht]. assert (t = df) by congruence. subst t.
    simpl. split; [reflexivity|]. split; [exact Hq|].
    split; [exact Hw|lia].
  - rewrite Hcon, Hrun in Hw1 |- *. simpl in *.
    split; [reflexivity|]. split; [apply lookup_insert_eq|].
    split; [exact Hw1|lia].
Qed.

(** X13.  When the store gives the table [df] and the transform of [df]
    returns, the first call of the cached [process_location_data] returns
    the tables of [df], and the second returns them again without touching
    the process: no call of [load_data], no run of the transform. *)
Theorem cached_transform_twice (s : Page.session)
    (df : list raw_row) (out : list chart_row * pivot_table) :
  consistent db (Page.process s) -> Page.locations_cache s = None ->
  connect db = Ok () -> run db sql_locations = Ok df ->
  process_location_data df = Ok out ->
  (Page.process_location_data db sql_locations s).1 = Ok out /\
  Page.process_location_data db sql_locations
    (Page.process_location_data db sql_locations s).2
  = (Ok out, (Page.process_location_data db sql_locations s).2) /\
  (executions (Page.process (Page.process_location_data db sql_locations s).2)
   <= S (executions (Page.process s)))%nat.
Proof.
  intros Hw Hnone Hcon Hrun Hout.
  destruct (body_on_available (Page.process s) df Hw Hcon Hrun)
    as (Hr & _ & _ & Hex).
  assert (H1 : Page.process_location_data db sql_locations s
               = (Ok out,
                  Page.Session
                    (Page.process_location_data_body db sql_locations
                       (Page.process s)).2 (Some out))).
  { unfold Page.process_location_data. rewrite Hnone.
    destruct (Page.process_location_data_body db sql_locations
                (Page.process s)) as [r w1]. simpl in *.
    now rewrite Hr, Hout. }
  rewrite H1. simpl. split; [reflexivity|]. split; [reflexivity|exact Hex].
Qed.

(** X14.  An exception of the transform is not cached, the table is: when
    the store gives a table with a null dwelling type, every call of the
    cached [process_location_data] raises [AttributeError], and the store
    runs the query once, for the first call only. *)
Theorem transform_error_is_not_cached (s : Page.session)
    (df : list raw_row) :
  consistent db (Page.process s) -> Page.locations_cache s = None ->
  connect db = Ok () -> run db sql_locations = Ok df ->
  ~ Forall (fun r => is_str (dwelling_type r)) df ->
  (Page.process_location_data db sql_locations s).1 = Raise AttributeError /\
  (Page.process_location_data db sql_locations
     (Page.process_location_data db sql_locations s).2).1
  = Raise AttributeError /\
  executions
    (Page.process
       (Page.process_location_data db sql_locations
          (Page.process_location_data db sql_locations s).2).2)
  = executions (Page.process (Page.process_location_data db sql_locations s).2)
  /\
  (executions (Page.process (Page.process_location_data db sql_locations s).2)
   <= S (executions (Page.process s)))%nat.
Proof.
  intros Hw Hnone Hcon Hrun Hnull.
  assert (Hraise : process_location_data df = Raise AttributeError).
  { unfold process_location_data.
    now rewrite (classify_not_strings df Hnull). }
  destruct (body_on_available (Page.process s) df Hw Hcon Hrun)
    as (Hr & Hc & Hw1 & Hex).
  assert (H1 : Page.process_location_data db sql_locations s
               = (Raise AttributeError,
                  Page.Session
                    (Page.process_location_data_body db sql_locations
                       (Page.process s)).2 None)).
  { unfold Page.process_location_data. rewrite Hnone.
    destruct (Page.process_location_data_body db sql_locations
                (Page.process s)) as [r w1]. simpl in *.
    now rewrite Hr, Hraise. }
  rewrite H1. simpl. split; [reflexivity|].
  set (w1 := (Page.process_location_data_body db sql_locations
                (Page.process s)).2) in *.
  unfold Page.process_location_data. simpl.
  unfold Page.process_location_data_body.
  rewrite load_data_unfold, Hc. rewrite Hraise. simpl.
  split; [reflexivity|]. split; [reflexivity|exact Hex].
Qed.

End session_facts.

Lemma cached_transform_twice_witness :
  let db := Store (Ok ()) (fun _ => Ok example_rows) in
  let s := Page.Session start None in
  exists out,
    (Page.process_location_data db "q" s).1 = Ok out /\
    Page.process_location_data db "q" (Page.process_location_data db "q" s).2
    = (Ok out, (Page.process_location_data db "q" s).2).
Proof.
  intros db s.
  destruct (process_location_data example_rows) as [out|e] eqn:Hout;
    [|vm_compute in Hout; discriminate].
  exists out.
  destruct (cached_transform_twice db "q" s example_rows out) as (H1 & H2 & _);
    try reflexivity; [apply consistent_start|exact Hout|].
  now split.
Defined.

Lemma transform_error_is_not_cached_witness :
  let db := Store (Ok ()) (fun _ => Ok [RawRow PNone (PStr "Kitchen") 5]) in
  let s := Page.Session start None in
  (Page.process_location_data db "q" s).1 = Raise AttributeError /\
  (Page.process_location_data db "q"
     (Page.process_location_data db "q" s).2).1 = Raise AttributeError.
Proof.
  intros db s.
  destruct (transform_error_is_not_cached db "q" s
              [RawRow PNone (PStr "Kitchen") 5]) as (H1 & H2 & _);
    try reflexivity; [apply consistent_start| |now split].
  intros H. inversion H as [|? ? Hs _]. exact Hs.
Defined.

End SessionFacts.

(** ** [inspect_schema.py] *)

Module InspectSchemaFacts.
Import InspectSchema.

Lemma append_assoc (a b c : string) : (a +:+ b) +:+ c = a +:+ (b +:+ c).
Proof.
  induction a as [|x a IH]; [reflexivity|].
  change (String x ((a +:+ b) +:+ c) = String x (a +:+ (b +:+ c))).
  now rewrite IH.
Qed.

Lemma append_nil_r (a : string) : a +:+ "" = a.
Proof.
  induction a as [|x a IH]; [reflexivity|].
  change (String x (a +:+ "") = String x a). now rewrite IH.
Qed.

Lemma sections_ok (c : catalog) (ts : list string) :
  (sections c ts).2 = None <->
  forall t, t ∈ ts -> exists cols, describe c t = Rows cols.
Proof.
  induction ts as [|t ts IH]; simpl.
  - split; [|reflexivity]. intros _ t Ht. now apply elem_of_nil in Ht.
  - destruct (describe c t) as [cols|m] eqn:Hd.
    + destruct (sections c ts) as [rest err]. simpl in *. rewrite IH. split.
      * intros H t' Ht'. apply elem_of_cons in Ht' as [->|Ht']; eauto.
      * intros H t' Ht'. apply H. now right.
    + simpl. split; [discriminate|]. intros H.
      destruct (H t) as [cols Hc]; [left|]. congruence.
Qed.

Lemma sections_app (c : catalog) (pre post : list string) :
  (forall t, t ∈ pre -> exists cols, describe c t = Rows cols) ->
  sections c (pre ++ post)
  = ((sections c pre).1 +:+ (sections c post).1, (sections c post).2).
Proof.
  induction pre as [|t pre IH]; intros Hpre; simpl.
  - now destruct (sections c post).
  - destruct (Hpre t) as [cols Hc]; [left|]. rewrite Hc.
    rewrite IH by (intros t' Ht'; apply Hpre; now right).
    destruct (sections c pre) as [text err]. simpl.
    f_equal. now rewrite !append_assoc.
Qed.

(** X15.  The script runs to its end exactly when the database opens,
    SHOW TABLES succeeds and DESCRIBE succeeds for every table; whether the
    samples can be read plays no part. *)
Theorem completes_iff (c : catalog) (fs : files) :
  completes c fs <->
  opens c = Rows () /\
  exists tables, show_tables c = Rows tables /\
    forall t, t ∈ tables -> exists cols, describe c t = Rows cols.
Proof.
  unfold completes, inspect_schema, body.
  destruct (opens c) as [[]|m]; simpl.
  - destruct (show_tables c) as [tables|m]; simpl.
    + pose proof (sections_ok c tables) as Hok.
      destruct (sections c tables) as [text err]. simpl in *.
      rewrite Hok. split.
      * intros H. split; [reflexivity|]. eauto.
      * intros (_ & tables' & [= <-] & H). exact H.
    + split; [discriminate|]. intros (_ & tables & Ht & _). discriminate.
  - split; [discriminate|]. intros (Ho & _). discriminate.
Qed.

Lemma completes_iff_witness :
  let c := Catalog (Rows ()) (Rows ["dim_spread"])
             (fun _ => Rows [("spread_key", "BIGINT")])
             (fun _ => Failed "IO Error") in
  completes c (Files "" false false).
Proof.
  intros c. apply (proj2 (completes_iff c _)).
  split; [reflexivity|]. exists ["dim_spread"]. split; [reflexivity|].
  intros t _. eexists. reflexivity.
Defined.

(** X16.  When DESCRIBE fails for a table, the script stops with that
    error at the first such table; the report file then holds the complete
    list of tables, the complete sections of the tables before it and the
    heading of the failing one, whatever it held before; the file is
    closed and the connection is still open. *)
Theorem first_failing_describe (c : catalog) (fs : files)
    (pre post : list string) (t m : string) :
  opens c = Rows () ->
  show_tables c = Rows (pre ++ t :: post)%list ->
  (forall t', t' ∈ pre -> exists cols, describe c t' = Rows cols) ->
  describe c t = Failed m ->
  inspect_schema c fs
  = (Some m,
     Files (table_list (pre ++ t :: post)%list +:+ (sections c pre).1 +:+
            "--- SCHEMA FOR " +:+ t +:+ " ---" +:+ nl)
       false true).
Proof.
  intros Ho Hs Hpre Ht. unfold inspect_schema, body. rewrite Ho, Hs.
  rewrite (sections_app c pre (t :: post) Hpre). simpl. rewrite Ht. simpl.
  reflexivity.
Qed.

Lemma first_failing_describe_witness :
  let c := Catalog (Rows ()) (Rows ["a"; "b"])
             (fun t => if decide (t = "a") then Rows [("k", "BIGINT")]
                       else Failed "Catalog Error")
             (fun _ => Rows "") in
  (inspect_schema c (Files "old report" false false)).1
  = Some "Catalog Error".
Proof.
  intros c.
  rewrite (first_failing_describe c _ ["a"] [] "b" "Catalog Error");
    try reflexivity.
  intros t' Ht'. apply list_elem_of_singleton in Ht' as ->.
  eexists. reflexivity.
Defined.

End InspectSchemaFacts.
